(** * grammar_checker: message coalescing, markup-safe splitting, user store

    A shallow embedding of [message_handler.py] ([combine_messages],
    [split_response], [convert_markdown_to_html]), of [user_manager.py]
    ([UserManager]) and of what the handlers of [bot.py] decide and keep,
    with the properties stated about them.

    Python strings are sequences of Unicode code points; they are modelled as
    lists of code points ([N]).  Python integers are unbounded and are
    modelled as [Z].  The [users] dictionary is a finite map keyed by the
    string form of the user id. *)

From Stdlib Require Import ZArith NArith List String Ascii Lia Bool.
From stdpp Require Import base decidable option list gmap strings pretty.

Local Open Scope Z_scope.

(** ** Python text primitives *)

Module Text.

(** Code point of an 8-bit character literal, and the text of a literal. *)
Definition ch (a : ascii) : N := N_of_ascii a.
Definition py (s : string) : list N := map ch (list_ascii_of_string s).

Arguments ch : simpl never.

(** [len(s)] *)
Definition len (s : list N) : Z := Z.of_nat (length s).

Definition in_range (lo hi c : N) : bool := ((lo <=? c) && (c <=? hi))%N.

(** The explicit ranges of the regular expressions: [a-z], [a-zA-Z],
    [a-zA-Z0-9]. *)
Definition is_lower_az (c : N) : bool := in_range 97 122 c.
Definition is_upper_az (c : N) : bool := in_range 65 90 c.
Definition is_letter (c : N) : bool := is_lower_az c || is_upper_az c.
Definition is_alnum (c : N) : bool := is_letter c || in_range 48 57 c.

(** Whitespace as [str.isspace] and the regular expression class [\s] see it
    on [str] values. *)
Definition is_space (c : N) : bool :=
  in_range 9 13 c || in_range 28 32 c || (c =? 133)%N || (c =? 160)%N
  || (c =? 5760)%N || in_range 8192 8202 c || (c =? 8232)%N || (c =? 8233)%N
  || (c =? 8239)%N || (c =? 8287)%N || (c =? 12288)%N.

Definition NL : N := 10%N.
Definition is_char (a : ascii) (c : N) : bool := (c =? ch a)%N.

(** [s.rfind(c)] for a one-character needle: the highest index of [c] in [s],
    or [-1]. *)
Fixpoint rfind_from (c : N) (s : list N) (i best : Z) : Z :=
  match s with
  | [] => best
  | x :: r => rfind_from c r (i + 1) (if (x =? c)%N then i else best)
  end.

Definition rfind (c : N) (s : list N) : Z := rfind_from c s 0 (-1).

(** [s.rstrip(chars)], [s.lstrip(chars)] with the character set as a
    predicate, and [s.strip()], which trims whitespace on both sides. *)
Fixpoint rstrip (p : N -> bool) (s : list N) : list N :=
  match s with
  | [] => []
  | c :: r =>
      match rstrip p r with
      | [] => if p c then [] else [c]
      | r' => c :: r'
      end
  end.

Fixpoint lstrip (p : N -> bool) (s : list N) : list N :=
  match s with
  | [] => []
  | c :: r => if p c then lstrip p r else s
  end.

Definition strip (s : list N) : list N := rstrip is_space (lstrip is_space s).

(** [s.endswith(c)] for a one-character suffix. *)
Definition endswith (c : N) (s : list N) : bool :=
  match last s with
  | Some x => (x =? c)%N
  | None => false
  end.

(** Python slices [s[:k]] and [s[k:]]: a negative bound counts from the end,
    and bounds are clipped to the string. *)
Definition slice_index (s : list N) (k : Z) : nat :=
  if k <? 0 then Z.to_nat (Z.max 0 (len s + k)) else Z.to_nat k.

Definition slice_to (s : list N) (k : Z) : list N := take (slice_index s k) s.
Definition slice_from (s : list N) (k : Z) : list N := drop (slice_index s k) s.

(** [a == b] on strings. *)
Fixpoint str_eqb (a b : list N) : bool :=
  match a, b with
  | [], [] => true
  | x :: a', y :: b' => (x =? y)%N && str_eqb a' b'
  | _, _ => false
  end.

End Text.

(** ** message_handler.py *)

Module MessageHandler.
Import Text.

(** *** Regular expressions of [combine_messages] *)

Definition is_sentence_punct (c : N) : bool :=
  is_char "." c || is_char "!" c || is_char "?" c.

(** Whitespace, any number of times, then [$], tried at the head of [s].  Without the MULTILINE flag, [$] matches
    at the end of the string and just before a newline that ends it. *)
Fixpoint match_spaces_eol (s : list N) : bool :=
  match s with
  | [] => true
  | c :: r =>
      ((c =? NL)%N && match r with [] => true | _ => false end)
      || (is_space c && match_spaces_eol r)
  end.

(** [re.search] of the pattern "one of [.!?], whitespace any number of times,
    [$]" in [s], as a truth value. *)
Fixpoint search_punct_eol (s : list N) : bool :=
  match s with
  | [] => false
  | c :: r => (is_sentence_punct c && match_spaces_eol r) || search_punct_eol r
  end.

(** [re.search(r'^[a-z,;:]', s)], as a truth value. *)
Definition search_lower_start (s : list N) : bool :=
  match s with
  | [] => false
  | c :: _ => is_lower_az c || is_char "," c || is_char ";" c || is_char ":" c
  end.

(** *** [combine_messages] *)

(** The body of the [for] loop: [combined_text] after fragment [curr_msg],
    given the fragment before it. *)
Definition combine_step (combined_text prev_msg curr_msg : list N) : list N :=
  let ends_with_punct := search_punct_eol prev_msg in
  let starts_with_lowercase := search_lower_start curr_msg in
  if negb ends_with_punct || starts_with_lowercase then
    if endswith (ch "-") (strip prev_msg)
    then rstrip (is_char "-") combined_text ++ curr_msg
    else combined_text ++ py " " ++ curr_msg
  else combined_text ++ [NL; NL] ++ curr_msg.

Definition combine_messages {Id : Type} (messages : list (list N * Id))
  : list N * list Id :=
  match messages with
  | [] => ([], [])
  | [m] => (fst m, [snd m])
  | _ =>
      let message_texts := map fst messages in
      let message_ids := map snd messages in
      let combined_text :=
        fold_left
          (fun combined_text i =>
             combine_step combined_text
               (nth (i - 1) message_texts [])
               (nth i message_texts []))
          (seq 1 (length message_texts - 1))
          (nth 0 message_texts []) in
      (combined_text, message_ids)
  end.

(** *** Regular expressions of [split_response] *)

(** The longest run of [a-zA-Z0-9] at the head of [s], and what follows. *)
Fixpoint span_alnum (s : list N) : list N * list N :=
  match s with
  | [] => ([], [])
  | c :: r =>
      if is_alnum c
      then let (name, after) := span_alnum r in (c :: name, after)
      else ([], s)
  end.

(** Number of characters before the first [>] of [s], if there is one: what
    the class of characters other than [>], repeated, takes when a [>] has to
    follow. *)
Fixpoint find_gt (s : list N) : option nat :=
  match s with
  | [] => None
  | c :: r => if is_char ">" c then Some 0%nat else S <$> find_gt r
  end.

(** [open_tag_pattern.match(s)]: a [<], a name (one letter of [a-zA-Z], then
    as many of [a-zA-Z0-9] as follow), optionally one whitespace character
    and any characters other than [>], then a [>].  Returns group 1 and
    [end()]. *)
Definition open_tag_match (s : list N) : option (list N * nat) :=
  match s with
  | lt :: c :: r =>
      if is_char "<" lt && is_letter c then
        let (name_tl, after) := span_alnum r in
        let tag_name := c :: name_tl in
        match after with
        | x :: after' =>
            if is_char ">" x then Some (tag_name, (2 + length tag_name)%nat)
            else if is_space x then
              match find_gt after' with
              | Some k => Some (tag_name, (2 + length tag_name + k + 1)%nat)
              | None => None
              end
            else None
        | [] => None
        end
      else None
  | _ => None
  end.

(** [close_tag_pattern.match(s)]: [</], a name as above, then [>]. *)
Definition close_tag_match (s : list N) : option (list N * nat) :=
  match s with
  | lt :: sl :: c :: r =>
      if is_char "<" lt && is_char "/" sl && is_letter c then
        let (name_tl, after) := span_alnum r in
        let tag_name := c :: name_tl in
        match after with
        | x :: _ =>
            if is_char ">" x then Some (tag_name, (3 + length tag_name)%nat)
            else None
        | [] => None
        end
      else None
  | _ => None
  end.

(** *** [split_response] *)

(** The local variables of the loop; the index [i] is carried as the
    remaining input [text[i:]]. *)
Record state := State {
  parts : list (list N);
  current_part : list N;
  open_tags : list (list N)
}.

Definition closing_tags (tags : list (list N)) : list N :=
  concat (map (fun tag => py "</" ++ tag ++ py ">") (reverse tags)).

Definition opening_tags (tags : list (list N)) : list N :=
  concat (map (fun tag => py "<" ++ tag ++ py ">") tags).

(** [break_pos] as computed when the buffer is full, after the final
    [break_pos += 1]. *)
Definition break_point (current_part : list N) (max_length : Z) : Z :=
  let break_pos :=
    Z.max (Z.max (rfind (ch ".") current_part) (rfind (ch "!") current_part))
          (rfind (ch "?") current_part) in
  let break_pos :=
    if (break_pos =? -1) || (break_pos <? max_length - 200)
    then rfind (ch " ") current_part else break_pos in
  let break_pos :=
    if (break_pos =? -1) || (break_pos <? max_length - 300)
    then len current_part - 1 else break_pos in
  break_pos + 1.

(** The [if len(current_part) >= max_length:] block at the head of the loop
    body. *)
Definition flush (max_length : Z) (st : state) : state :=
  if len (current_part st) >=? max_length then
    let break_pos := break_point (current_part st) max_length in
    let part_text :=
      slice_to (current_part st) break_pos ++ closing_tags (open_tags st) in
    {| parts := parts st ++ [part_text];
       current_part :=
         opening_tags (open_tags st) ++ slice_from (current_part st) break_pos;
       open_tags := open_tags st |}
  else st.

Definition add_text (s : list N) (st : state) : state :=
  {| parts := parts st;
     current_part := current_part st ++ s;
     open_tags := open_tags st |}.

Definition set_open_tags (tags : list (list N)) (st : state) : state :=
  {| parts := parts st; current_part := current_part st; open_tags := tags |}.

(** [open_tags and open_tags[-1] == tag_name] *)
Definition top_is (tag_name : list N) (tags : list (list N)) : bool :=
  match last tags with
  | Some t => str_eqb t tag_name
  | None => false
  end.

(** The rest of the loop body: consume one tag or one character of
    [text[i:]]; returns the new locals and [text[i':]]. *)
Definition scan (text_i : list N) (st : state) : state * list N :=
  match text_i with
  | [] => (st, [])
  | c :: rest =>
      let literal := (add_text [c] st, rest) in
      if is_char "<" c then
        match open_tag_match text_i with
        | Some (tag_name, tag_length) =>
            let st := add_text (take tag_length text_i) st in
            let st :=
              if negb (str_eqb (take 2 (drop (tag_length - 2) text_i))
                               (py "/>"))
              then set_open_tags (open_tags st ++ [tag_name]) st
              else st in
            (st, drop tag_length text_i)
        | None =>
            match close_tag_match text_i with
            | Some (tag_name, tag_length) =>
                let st := add_text (take tag_length text_i) st in
                let st :=
                  if top_is tag_name (open_tags st)
                  then set_open_tags (removelast (open_tags st)) st
                  else st in
                (st, drop tag_length text_i)
            | None => literal
            end
        end
      else literal
  end.

(** [while i < len(text):], with at most [fuel] iterations. *)
Fixpoint loop (fuel : nat) (max_length : Z) (text_i : list N) (st : state)
  : option state :=
  match text_i with
  | [] => Some st
  | _ =>
      match fuel with
      | O => None
      | S fuel =>
          let (st, text_i) := scan text_i (flush max_length st) in
          loop fuel max_length text_i st
      end
  end.

(** [split_response(text, max_length)]; [MAX_MESSAGE_LENGTH] is the
    configured default.  The loop gets one iteration per character of
    [text]. *)
Definition split_response (MAX_MESSAGE_LENGTH : Z) (text : list N)
    (max_length : option Z) : option (list (list N)) :=
  let max_length := default MAX_MESSAGE_LENGTH max_length in
  if len text <=? max_length then Some [text]
  else
    match loop (length text) max_length text
               {| parts := []; current_part := []; open_tags := [] |} with
    | Some st =>
        Some (match current_part st with
              | [] => parts st
              | _ => parts st ++ [current_part st]
              end)
    | None => None
    end.

End MessageHandler.

(** ** user_manager.py *)

Module UserManager.

(** [str(user_id)] for the integer ids the chat platform hands out. *)
Definition str (user_id : Z) : string :=
  pretty user_id.

(** One entry of [self.users]. *)
Record user := User {
  user_id : string;
  username : option string;
  first_name : string;
  joined_at : string;
  total_tokens : Z;
  last_activity : string
}.

(** What [data_file] holds: nothing, a dump of a users mapping, or something
    [json.load] rejects. *)
Inductive file :=
| Missing
| Holds (saved : gmap string user)
| Unreadable.

(** The fields of a [UserManager] and the file it writes to. *)
Record t := Manager {
  admin_id : string;
  max_users : Z;
  users : gmap string user;
  data_file : file
}.

Definition set_users (m : gmap string user) (um : t) : t :=
  {| admin_id := admin_id um; max_users := max_users um;
     users := m; data_file := data_file um |}.

Definition set_data_file (f : file) (um : t) : t :=
  {| admin_id := admin_id um; max_users := max_users um;
     users := users um; data_file := f |}.

(** How a write of the data file ends; every exception is caught and logged
    by [save_users]. *)
Inductive write_result :=
| Written
| OpenFailed
| DumpFailed.

Definition load_users (um : t) : t :=
  match data_file um with
  | Holds saved => set_users saved um
  | Missing | Unreadable => set_users ∅ um
  end.

Definition save_users (w : write_result) (um : t) : t :=
  match w with
  | Written => set_data_file (Holds (users um)) um
  | OpenFailed => um
  | DumpFailed => set_data_file Unreadable um
  end.

(** [UserManager(admin_id, max_users)] over an existing [data_file]. *)
Definition init (admin : string) (limit : Z) (f : file) : t :=
  load_users {| admin_id := admin; max_users := limit;
                users := ∅; data_file := f |}.

Definition is_authorized (um : t) (uid : Z) : bool :=
  bool_decide (is_Some (users um !! str uid)).

Definition is_admin (um : t) (uid : Z) : bool :=
  bool_decide (str uid = admin_id um).

Definition get_user_count (um : t) : Z := Z.of_nat (size (users um)).

Definition can_accept_new_user (um : t) : bool :=
  get_user_count um <? max_users um.

(** [first_name or 'Unknown'] *)
Definition or_unknown (first : option string) : string :=
  match first with
  | Some (String c s) => String c s
  | Some EmptyString | None => "Unknown"
  end.

(** [add_user]; [now] is [datetime.now().isoformat()].  Returns the result
    and the manager afterwards. *)
Definition add_user (um : t) (uid : Z) (uname first : option string)
    (now : string) (w : write_result) : bool * t :=
  let user_id_str := str uid in
  if bool_decide (is_Some (users um !! user_id_str)) then (false, um)
  else if negb (can_accept_new_user um) then (false, um)
  else
    let record :=
      {| user_id := user_id_str; username := uname;
         first_name := or_unknown first; joined_at := now;
         total_tokens := 0; last_activity := now |} in
    (true, save_users w (set_users (<[user_id_str := record]> (users um)) um)).

Definition add_tokens (tokens_used : Z) (u : user) : user :=
  {| user_id := user_id u; username := username u;
     first_name := first_name u; joined_at := joined_at u;
     total_tokens := total_tokens u + tokens_used;
     last_activity := last_activity u |}.

Definition touch (now : string) (u : user) : user :=
  {| user_id := user_id u; username := username u;
     first_name := first_name u; joined_at := joined_at u;
     total_tokens := total_tokens u; last_activity := now |}.

Definition update_tokens (um : t) (uid tokens_used : Z) (w : write_result)
  : t :=
  let user_id_str := str uid in
  match users um !! user_id_str with
  | None => um
  | Some u =>
      save_users w
        (set_users (<[user_id_str := add_tokens tokens_used u]> (users um)) um)
  end.

Definition update_last_activity (um : t) (uid : Z) (now : string)
    (w : write_result) : t :=
  let user_id_str := str uid in
  match users um !! user_id_str with
  | None => um
  | Some u =>
      save_users w (set_users (<[user_id_str := touch now u]> (users um)) um)
  end.

(** [get_all_users] hands out [self.users] itself; its caller in [bot.py]
    only reads it. *)
Definition get_all_users (um : t) : gmap string user := users um.

Definition get_user_info (um : t) (uid : Z) : option user :=
  users um !! str uid.

(** A call on a constructed manager, with what the environment contributes
    to it (the clock, the outcome of the write). *)
Inductive call :=
| IsAuthorized (uid : Z)
| IsAdmin (uid : Z)
| CanAcceptNewUser
| AddUser (uid : Z) (uname first : option string) (now : string)
    (w : write_result)
| UpdateTokens (uid tokens_used : Z) (w : write_result)
| UpdateLastActivity (uid : Z) (now : string) (w : write_result)
| GetUserCount
| GetAllUsers
| GetUserInfo (uid : Z)
| SaveUsers (w : write_result).

(** The manager after a call; the queries leave it as it is. *)
Definition exec (um : t) (c : call) : t :=
  match c with
  | AddUser uid uname first now w => snd (add_user um uid uname first now w)
  | UpdateTokens uid n w => update_tokens um uid n w
  | UpdateLastActivity uid now w => update_last_activity um uid now w
  | SaveUsers w => save_users w um
  | IsAuthorized _ | IsAdmin _ | CanAcceptNewUser | GetUserCount
  | GetAllUsers | GetUserInfo _ => um
  end.

Definition exec_all (um : t) (cs : list call) : t := fold_left exec cs um.

(** The bound on the number of stored users. *)
Definition within_limit (um : t) : Prop := get_user_count um <= max_users um.

End UserManager.

(** ** The vocabulary of the specification *)

Module Spec.
Import Text MessageHandler.

(** *** Coalescer (section 4.1) *)

(** The steps of section 4.1, with one difference that is the code's: the
    start test looks for [a] to [z] where the section says a lowercase
    letter. *)

(** [s] without its longest prefix of characters satisfying [p]. *)
Fixpoint drop_while (p : N -> bool) (s : list N) : list N :=
  match s with
  | c :: r => if p c then drop_while p r else s
  | [] => []
  end.

(** A text right-trimmed of trailing whitespace. *)
Definition right_trimmed (s : list N) : list N :=
  reverse (drop_while is_space (reverse s)).

(** The last character of [s] satisfies [p]. *)
Definition ends_with (p : N -> bool) (s : list N) : bool :=
  match reverse s with
  | c :: _ => p c
  | [] => false
  end.

Definition endsWithSentencePunct (previous : list N) : bool :=
  ends_with is_sentence_punct (right_trimmed previous).

(** The first character is one of [a] to [z], a comma, a semicolon or a
    colon.  Section 4.1 says "a lowercase letter"; this is the narrower test
    that the pattern of the code makes, and a lowercase letter outside [a]
    to [z] (é, я) does not pass it. *)
Definition startsAsciiLowercaseOrContinuation (current : list N) : bool :=
  match current with
  | c :: _ =>
      is_lower_az c || bool_decide (c ∈ [ch ","; ch ";"; ch ":"])
  | [] => false
  end.

Definition endsWithHyphen (previous : list N) : bool :=
  ends_with (is_char "-") (right_trimmed previous).

(** The accumulated text with all its trailing hyphens removed. *)
Definition without_trailing_hyphens (accumulated : list N) : list N :=
  reverse (drop_while (is_char "-") (reverse accumulated)).

(** How one adjacent pair is joined. *)
Inductive strategy :=
| HyphenMerge
| SpaceJoin
| ParagraphBreak.

Definition decide_join (previous current : list N) : strategy :=
  if negb (endsWithSentencePunct previous)
     || startsAsciiLowercaseOrContinuation current
  then if endsWithHyphen previous then HyphenMerge else SpaceJoin
  else ParagraphBreak.

Definition join (accumulated : list N) (how : strategy) (current : list N)
  : list N :=
  match how with
  | HyphenMerge => without_trailing_hyphens accumulated ++ current
  | SpaceJoin => accumulated ++ [ch " "] ++ current
  | ParagraphBreak => accumulated ++ [NL; NL] ++ current
  end.

(** Left to right over the fragments after the first. *)
Fixpoint coalesce_from (accumulated previous : list N)
    (fragments : list (list N)) : list N :=
  match fragments with
  | [] => accumulated
  | current :: later =>
      coalesce_from (join accumulated (decide_join previous current) current)
                    current later
  end.

Definition coalesce {Id : Type} (fragments : list (list N * Id))
  : list N * list Id :=
  match fragments with
  | [] => ([], [])
  | (first, _) :: later =>
      (coalesce_from first first (map fst later), map snd fragments)
  end.

(** *** Break point of the splitter (section 4.2) *)

(** The rightmost position of [s] whose character satisfies [p]. *)
Fixpoint rightmost (p : N -> bool) (s : list N) : option nat :=
  match s with
  | [] => None
  | c :: r =>
      match rightmost p r with
      | Some k => Some (S k)
      | None => if p c then Some 0%nat else None
      end
  end.

(** A position as an index of the buffer, [-1] when there is none. *)
Definition position (k : option nat) : Z :=
  match k with
  | Some k => Z.of_nat k
  | None => -1
  end.

(** A candidate position, unless there is none or it is too early. *)
Definition not_too_early (candidate : option nat) (earliest : Z)
  : option Z :=
  match candidate with
  | Some k => if Z.of_nat k <? earliest then None else Some (Z.of_nat k)
  | None => None
  end.

(** The position chosen by the three-step priority, advanced by one. *)
Definition break_after (buffer : list N) (maxLength : Z) : Z :=
  let sentence :=
    not_too_early (rightmost is_sentence_punct buffer) (maxLength - 200) in
  let space :=
    not_too_early (rightmost (is_char " ") buffer) (maxLength - 300) in
  let hard_cut := len buffer - 1 in
  match sentence, space with
  | Some k, _ => k + 1
  | None, Some k => k + 1
  | None, None => hard_cut + 1
  end.

(** *** Tags of a chunk, read alone *)

Inductive tag :=
| OpenTag (name : list N) (self_closing : bool)
| CloseTag (name : list N).

(** The tag that starts at the head of [s], with its length, as the
    splitter's two patterns recognise it. *)
Definition tag_at (s : list N) : option (tag * nat) :=
  match open_tag_match s with
  | Some (name, n) =>
      Some (OpenTag name (str_eqb (take 2 (drop (n - 2) s)) (py "/>")), n)
  | None =>
      match close_tag_match s with
      | Some (name, n) => Some (CloseTag name, n)
      | None => None
      end
  end.

(** The tags and the literal characters of [s] in order; [skip] characters
    of a tag already read remain to be passed over. *)
Fixpoint tokens_from (skip : nat) (s : list N) : list (tag + N) :=
  match s with
  | [] => []
  | c :: r =>
      match skip with
      | S k => tokens_from k r
      | O =>
          match tag_at s with
          | Some (t, n) => inl t :: tokens_from (n - 1) r
          | None => inr c :: tokens_from 0 r
          end
      end
  end.

Definition tokens (s : list N) : list (tag + N) := tokens_from 0 s.

(** The text with every tag removed. *)
Definition visible_text (s : list N) : list N :=
  omap (fun t => match t with inr c => Some c | inl _ => None end) (tokens s).

(** The open-tag stack after reading the tokens [ts] on top of [stack];
    [None] when a closing tag does not match the innermost open tag. *)
Fixpoint open_stack (ts : list (tag + N)) (stack : list (list N))
  : option (list (list N)) :=
  match ts with
  | [] => Some stack
  | inl (OpenTag name false) :: ts' => open_stack ts' (stack ++ [name])
  | inl (CloseTag name) :: ts' =>
      if top_is name stack then open_stack ts' (removelast stack) else None
  | _ :: ts' => open_stack ts' stack
  end.

(** Every tag opened in [s] is closed in [s], and no closing tag comes
    without its opening tag. *)
Definition balanced (s : list N) : bool :=
  match open_stack (tokens s) [] with
  | Some [] => true
  | _ => false
  end.

(** Well-formed inline HTML: balanced, and every [<] starts a tag. *)
Definition well_formed (s : list N) : bool :=
  balanced s && forallb (fun t => match t with
                                  | inr c => negb (is_char "<" c)
                                  | inl _ => true
                                  end) (tokens s).

(** *** Markup whose tags carry no attribute *)

(** A literal character, an opening tag [<name>] or a closing tag
    [</name>]. *)
Inductive piece :=
| Lit (c : N)
| Opening (name : list N)
| Closing (name : list N).

Definition render_piece (p : piece) : list N :=
  match p with
  | Lit c => [c]
  | Opening name => py "<" ++ name ++ py ">"
  | Closing name => py "</" ++ name ++ py ">"
  end.

Definition render (ps : list piece) : list N :=
  concat (map render_piece ps).

(** A tag name: a letter, then letters and digits. *)
Definition tag_name_ok (name : list N) : bool :=
  match name with
  | c :: r => is_letter c && forallb is_alnum r
  | [] => false
  end.

(** A literal character is not a [<]. *)
Definition piece_ok (p : piece) : bool :=
  match p with
  | Lit c => negb (is_char "<" c)
  | Opening name | Closing name => tag_name_ok name
  end.

Definition literal (p : piece) : option N :=
  match p with
  | Lit c => Some c
  | Opening _ | Closing _ => None
  end.

Definition literals (ps : list piece) : list N := omap literal ps.

(** The characters tags are made of. *)
Definition is_markup_char (c : N) : bool :=
  is_alnum c || is_char "<" c || is_char "/" c || is_char ">" c.

(** The open-tag stack after the loop has read a piece. *)
Definition track (p : piece) (tags : list (list N)) : list (list N) :=
  match p with
  | Lit _ => tags
  | Opening name => tags ++ [name]
  | Closing name => if top_is name tags then removelast tags else tags
  end.

(** The token a piece is read back as. *)
Definition token_of (p : piece) : tag + N :=
  match p with
  | Lit c => inr c
  | Opening name => inl (OpenTag name false)
  | Closing name => inl (CloseTag name)
  end.

Abbreviation pieces_ok := (Forall (fun p => piece_ok p = true)).
Abbreviation names_ok := (Forall (fun name => tag_name_ok name = true)).

(** What the loop has made of the pieces [seen] so far: the chunks emitted
    and the buffer are whole pieces, with the literal characters of [seen]
    in order, and the open tags are tag names. *)
Definition reads (seen : list piece) (st : state) : Prop :=
  exists qs cur,
    pieces_ok qs /\ pieces_ok cur
    /\ concat (parts st) = render qs
    /\ current_part st = render cur
    /\ literals qs ++ literals cur = literals seen
    /\ names_ok (open_tags st).

End Spec.

(** ** bot.py: the plain text of a reply *)

Module Bot.
Import Text.

(** Number of characters of [s] up to its first [>], that one included, when
    no [<] comes before it. *)
Fixpoint lazy_until_gt (s : list N) : option nat :=
  match s with
  | [] => None
  | c :: r =>
      if is_char ">" c then Some 1%nat
      else if is_char "<" c then None
      else S <$> lazy_until_gt r
  end.

(** Length of the match, at the head of [s], of the pattern of
    [re.sub(r'<[^<]+?>', '', text)]: a [<], one or more characters other
    than [<], as few as possible, then a [>]. *)
Definition tag_match (s : list N) : option nat :=
  match s with
  | lt :: c :: r =>
      if is_char "<" lt && negb (is_char "<" c)
      then (fun n => (2 + n)%nat) <$> lazy_until_gt r
      else None
  | _ => None
  end.

(** The substitution: matches are dropped left to right, the other
    characters are kept. *)
Fixpoint plain_text_from (skip : nat) (s : list N) : list N :=
  match s with
  | [] => []
  | c :: r =>
      match skip with
      | S k => plain_text_from k r
      | O =>
          match tag_match s with
          | Some n => plain_text_from (n - 1) r
          | None => c :: plain_text_from 0 r
          end
      end
  end.

Definition plain_text (s : list N) : list N := plain_text_from 0 s.

End Bot.

(** ** convert_markdown_to_html, in message_handler.py and in bot.py *)

Module Markdown.
Import Text.

(** [re.sub(pattern, repl, s)] for a pattern that matches no empty text.
    [m before s] is the match of the pattern at the head of [s], where
    [before] is the character in front of it (for the lookbehinds): the text
    put in its place and the number of characters matched.  Matches are
    taken from left to right and do not overlap; [skip] characters of the
    last match remain to be passed over. *)
Fixpoint sub_from (m : option N -> list N -> option (list N * nat))
    (skip : nat) (before : option N) (s : list N) : list N :=
  match s with
  | [] => []
  | c :: r =>
      match skip with
      | S k => sub_from m k (Some c) r
      | O =>
          match m before s with
          | Some (repl, n) => repl ++ sub_from m (n - 1) (Some c) r
          | None => c :: sub_from m 0 (Some c) r
          end
      end
  end.

Definition sub (m : option N -> list N -> option (list N * nat))
    (s : list N) : list N :=
  sub_from m 0 None s.

(** The lazy group [(.*?)] followed by the rest of the pattern: the
    shortest run of characters other than newline after which [closing]
    matches; gives the group and the length of group and closing. *)
Fixpoint lazy_group (closing : option N -> list N -> option nat)
    (before : option N) (s : list N) : option (list N * nat) :=
  match closing before s with
  | Some k => Some ([], k)
  | None =>
      match s with
      | [] => None
      | c :: r =>
          if (c =? NL)%N then None
          else
            match lazy_group closing (Some c) r with
            | Some (group, n) => Some (c :: group, S n)
            | None => None
            end
      end
  end.

Definition is_before (a : ascii) (before : option N) : bool :=
  match before with
  | Some c => is_char a c
  | None => false
  end.

Definition wrap (tag : string) (group : list N) : list N :=
  py "<" ++ py tag ++ py ">" ++ group ++ py "</" ++ py tag ++ py ">".

(** Two asterisks, the lazy group, two asterisks; replaced by the group in
    a [b] element. *)
Definition two_asterisks (before : option N) (s : list N) : option nat :=
  match s with
  | a :: b :: _ => if is_char "*" a && is_char "*" b then Some 2%nat else None
  | _ => None
  end.

Definition bold (before : option N) (s : list N) : option (list N * nat) :=
  match s with
  | a :: b :: r =>
      if is_char "*" a && is_char "*" b then
        match lazy_group two_asterisks (Some b) r with
        | Some (group, n) => Some (wrap "b" group, (2 + n)%nat)
        | None => None
        end
      else None
  | _ => None
  end.

(** An underscore not preceded by a backslash, the lazy group, an
    underscore not preceded by a backslash; replaced by the group in an
    [i] element. *)
Definition bare_underscore (before : option N) (s : list N) : option nat :=
  match s with
  | c :: _ =>
      if is_char "_" c && negb (is_before "\" before) then Some 1%nat
      else None
  | [] => None
  end.

Definition italic_underscore (before : option N) (s : list N)
  : option (list N * nat) :=
  match bare_underscore before s, s with
  | Some _, c :: r =>
      match lazy_group bare_underscore (Some c) r with
      | Some (group, n) => Some (wrap "i" group, (1 + n)%nat)
      | None => None
      end
  | _, _ => None
  end.

(** An asterisk not preceded by an asterisk, the lazy group, then an
    asterisk where the lookahead wants no asterisk; replaced by the group in
    an [i] element. *)
Definition asterisk_after_no_asterisk (before : option N) (s : list N)
  : option nat :=
  match s with
  | c :: _ => if negb (is_char "*" c) && is_char "*" c then Some 1%nat else None
  | [] => None
  end.

Definition italic_asterisk (before : option N) (s : list N)
  : option (list N * nat) :=
  match s with
  | c :: r =>
      if is_char "*" c && negb (is_before "*" before) then
        match lazy_group asterisk_after_no_asterisk (Some c) r with
        | Some (group, n) => Some (wrap "i" group, (1 + n)%nat)
        | None => None
        end
      else None
  | [] => None
  end.

(** [s.startswith(prefix)] *)
Fixpoint starts_with (prefix s : list N) : bool :=
  match prefix, s with
  | [], _ => true
  | p :: prefix, c :: s => (p =? c)%N && starts_with prefix s
  | _ :: _, [] => false
  end.

(** A pattern that is a fixed text. *)
Definition fixed (text repl : list N) (before : option N) (s : list N)
  : option (list N * nat) :=
  if starts_with text s then Some (repl, length text) else None.

(** The text [<br], whitespace, at most one [/], then [>]; replaced by a
    newline. *)
Fixpoint br_end (s : list N) : option nat :=
  match s with
  | [] => None
  | c :: r =>
      if is_space c then S <$> br_end r
      else if is_char ">" c then Some 1%nat
      else if is_char "/" c then
        match r with
        | d :: _ => if is_char ">" d then Some 2%nat else None
        | [] => None
        end
      else None
  end.

Definition br_tag (before : option N) (s : list N) : option (list N * nat) :=
  match s with
  | a :: b :: c :: r =>
      if is_char "<" a && is_char "b" b && is_char "r" c
      then (fun n => ([NL], (3 + n)%nat)) <$> br_end r
      else None
  | _ => None
  end.

(** [convert_markdown_to_html] of [message_handler.py]. *)
Definition convert_markdown_to_html (text : list N) : list N :=
  let text := sub bold text in
  let text := sub italic_underscore text in
  let text := sub italic_asterisk text in
  let text := sub (fixed [ch " "; ch " "; NL] (py "<br>" ++ [NL])) text in
  let text := sub (fixed [NL; NL] (py "<br><br>")) text in
  text.

(** [convert_markdown_to_html] of [bot.py], which the handlers call; [None]
    is Python's [None]. *)
Definition convert_markdown_to_html_bot (text : option (list N)) : list N :=
  match text with
  | None => []
  | Some text =>
      let text := sub bold text in
      let text := sub italic_underscore text in
      let text := sub italic_asterisk text in
      let text := sub (fixed [ch " "; ch " "; NL] [NL]) text in
      let text := sub (fixed [NL; NL] [NL]) text in
      let text := sub br_tag text in
      text
  end.

End Markdown.

(** ** bot.py: the handlers of GrammarBot *)

(** The handlers talk to the chat platform and to the language model; what
    they decide and what they keep is modelled here, with the replies of the
    model, the clock and the outcome of the writes as inputs. *)

Module GrammarBot.
Import Text MessageHandler.

(** Exceptions the handlers can run into. *)
Inductive exn :=
| IndexError.

Inductive outcome (A : Type) :=
| Returned (a : A)
| Raised (e : exn).
Arguments Returned {A} a.
Arguments Raised {A} e.

(** *** The opening of [start], [help] and [handle_message] *)

(** A known user is noted as active, a new one is added while there is
    room, and the handler goes on ([true]); otherwise the user is told that
    the limit is reached and the handler returns ([false]). *)
Definition admission (um : UserManager.t) (user_id : Z)
    (username first_name : option string) (now : string)
    (w : UserManager.write_result) : bool * UserManager.t :=
  if UserManager.is_authorized um user_id then
    (true, UserManager.update_last_activity um user_id now w)
  else if UserManager.can_accept_new_user um then
    (true,
     snd (UserManager.add_user um user_id username first_name now w))
  else (false, um).

(** *** The message queue *)

(** [message_queue[user_id].append((message_text, message_id))], after an
    empty list has been put there when the user has none. *)
Definition enqueue (message_queue : gmap Z (list (list N * Z)))
    (user_id : Z) (message_text : list N) (message_id : Z)
  : gmap Z (list (list N * Z)) :=
  let message_queue :=
    match message_queue !! user_id with
    | Some _ => message_queue
    | None => <[user_id := []]> message_queue
    end in
  <[user_id := default [] (message_queue !! user_id)
               ++ [(message_text, message_id)]]> message_queue.

(** [l[i]] *)
Definition index {A : Type} (l : list A) (i : Z) : outcome A :=
  let n := Z.of_nat (length l) in
  let found :=
    if 0 <=? i then l !! Z.to_nat i
    else if - n <=? i then l !! Z.to_nat (n + i)
    else None in
  match found with
  | Some x => Returned x
  | None => Raised IndexError
  end.

(** What [process_message_queue] does with the queue of a user before it
    calls the model: nothing when there is nothing queued; else the queue is
    emptied, the messages are combined, and the text is turned down, in a
    reply to [original_ids[0]], when it is longer than
    [MAX_MESSAGE_LENGTH], or sent for correction. *)
Inductive queued :=
| NothingQueued
| TooLong (reply_to : Z)
| ToCorrect (combined_text : list N) (original_ids : list Z).

Definition process_message_queue (MAX_MESSAGE_LENGTH : Z)
    (message_queue : gmap Z (list (list N * Z))) (user_id : Z)
  : gmap Z (list (list N * Z)) * outcome queued :=
  match message_queue !! user_id with
  | None | Some [] => (message_queue, Returned NothingQueued)
  | Some messages =>
      let message_queue := <[user_id := []]> message_queue in
      let (combined_text, original_ids) := combine_messages messages in
      if len combined_text >? MAX_MESSAGE_LENGTH then
        match index original_ids 0 with
        | Returned reply_to => (message_queue, Returned (TooLong reply_to))
        | Raised e => (message_queue, Raised e)
        end
      else (message_queue, Returned (ToCorrect combined_text original_ids))
  end.

(** The messages of a user arriving one after the other. *)
Definition enqueue_all (message_queue : gmap Z (list (list N * Z)))
    (user_id : Z) (messages : list (list N * Z))
  : gmap Z (list (list N * Z)) :=
  fold_left (fun queue m => enqueue queue user_id (fst m) (snd m))
            messages message_queue.

(** *** The text sent for copying *)

(** [html.escape(s)] *)
Definition escape_char (c : N) : list N :=
  if is_char "&" c then py "&amp;"
  else if is_char "<" c then py "&lt;"
  else if is_char ">" c then py "&gt;"
  else if (c =? 34)%N then py "&quot;"
  else if is_char "'" c then py "&#x27;"
  else [c].

Definition html_escape (s : list N) : list N := concat (map escape_char s).

(** The text with its tags stripped, escaped, in a [pre] element. *)
Definition copiable_text (text : list N) : list N :=
  py "<pre>" ++ html_escape (Bot.plain_text text) ++ py "</pre>".

(** *** The data of the buttons *)

(** [s.split(sep)] for a one-character separator. *)
Fixpoint split (sep : N) (s : list N) : list (list N) :=
  match s with
  | [] => [[]]
  | c :: r =>
      if (c =? sep)%N then [] :: split sep r
      else
        match split sep r with
        | part :: parts => (c :: part) :: parts
        | [] => [[c]]
        end
  end.

(** [str(message_id)] *)
Definition str (message_id : Z) : list N := py (pretty message_id).

(** The data put on the buttons. *)
Definition explain_button (message_id : list N) := py "explain_" ++ message_id.
Definition fluency_button (message_id : list N) := py "fluency_" ++ message_id.
Definition style_button (style message_id : list N) :=
  py "style_" ++ style ++ py "_" ++ message_id.
Definition reformulate_button (message_id : list N) :=
  py "reformulate_" ++ message_id.
Definition nav_button (direction message_id : list N) :=
  py "nav_" ++ direction ++ py "_" ++ message_id.
Definition counter_button : list N := py "noop".

(** The branch [handle_callback] takes on the data of a button. *)
Inductive request :=
| Explain (message_id : list N)
| Fluency (message_id : list N)
| Copy (message_id : list N)
| Style (style message_id : list N)
| Reformulate (message_id : list N)
| Nav (direction message_id : list N)
| NoBranch.

Definition dispatch (query_data : list N) : outcome request :=
  let data := split (ch "_") query_data in
  match data !! 0%nat, data !! 1%nat with
  | Some action, Some message_id =>
      if str_eqb action (py "explain") then Returned (Explain message_id)
      else if str_eqb action (py "fluency") then Returned (Fluency message_id)
      else if str_eqb action (py "copy") then Returned (Copy message_id)
      else if str_eqb action (py "style") then
        match data !! 2%nat with
        | Some id => Returned (Style message_id id)
        | None => Raised IndexError
        end
      else if str_eqb action (py "reformulate")
      then Returned (Reformulate message_id)
      else if str_eqb action (py "nav") then
        match data !! 2%nat with
        | Some id => Returned (Nav message_id id)
        | None => Raised IndexError
        end
      else Returned NoBranch
  | _, _ => Raised IndexError
  end.

(** *** The versions of a corrected text *)

(** One entry of [conversation_data]. *)
Record conversation := Conversation {
  original : list N;
  corrected : list N;
  selected_style : option (list N);
  fluency_versions : list (list N);
  current_version_index : Z
}.

(** The entry [process_message_queue] stores after a correction. *)
Definition new_conversation (combined_text corrected_text : list N)
  : conversation :=
  {| original := combined_text; corrected := corrected_text;
     selected_style := None; fluency_versions := [];
     current_version_index := 0 |}.

(** The reply of the model: [None] when the call raised, else the content
    (Python's [None] when there is none) and the tokens used. *)
Definition llm_reply : Type := option (option (list N) * Z).

(** The [style] branch on the entry of the message: the improved text
    becomes the only version, unless the entry has no corrected text, the
    call raised or the plain text is too long. *)
Definition choose_style (MAX_MESSAGE_LENGTH : Z) (style : list N)
    (reply : llm_reply) (conv : conversation) : conversation :=
  match corrected conv, reply with
  | [], _ | _, None => conv
  | _, Some (improved_text, _) =>
      let improved_text :=
        Markdown.convert_markdown_to_html_bot improved_text in
      if len (Bot.plain_text improved_text) >? MAX_MESSAGE_LENGTH then conv
      else
        {| original := original conv; corrected := corrected conv;
           selected_style := Some style;
           fluency_versions := [improved_text];
           current_version_index := 0 |}
  end.

(** The [reformulate] branch: the new version is added at the end and
    becomes the current one, unless the entry has no original text or no
    version yet, the call raised or the plain text is too long. *)
Definition reformulate (MAX_MESSAGE_LENGTH : Z) (reply : llm_reply)
    (conv : conversation) : conversation :=
  match original conv, fluency_versions conv, reply with
  | [], _, _ | _, [], _ | _, _, None => conv
  | _, versions, Some (new_version, _) =>
      let new_version := Markdown.convert_markdown_to_html_bot new_version in
      if len (Bot.plain_text new_version) >? MAX_MESSAGE_LENGTH then conv
      else
        let versions := versions ++ [new_version] in
        {| original := original conv; corrected := corrected conv;
           selected_style := selected_style conv;
           fluency_versions := versions;
           current_version_index := Z.of_nat (length versions) - 1 |}
  end.

(** What the [nav] branch shows. *)
Inductive shown :=
| NoVersions
| Unmoved
| Version (text : list N) (number total : Z).

Definition nav (direction : list N) (conv : conversation)
  : conversation * outcome shown :=
  let fluency_versions := fluency_versions conv in
  let current_index := current_version_index conv in
  match fluency_versions with
  | [] => (conv, Returned NoVersions)
  | _ =>
      let new_index :=
        if str_eqb direction (py "prev") then Z.max 0 (current_index - 1)
        else Z.min (Z.of_nat (length fluency_versions) - 1) (current_index + 1) in
      if new_index =? current_index then (conv, Returned Unmoved)
      else
        let conv :=
          {| original := original conv; corrected := corrected conv;
             selected_style := selected_style conv;
             fluency_versions := fluency_versions;
             current_version_index := new_index |} in
        match index fluency_versions new_index with
        | Returned version_text =>
            (conv,
             Returned (Version (copiable_text version_text) (new_index + 1)
                               (Z.of_nat (length fluency_versions))))
        | Raised e => (conv, Raised e)
        end
  end.

(** What happens to the entry of a message after it is stored. *)
Inductive event :=
| StyleChosen (style : list N) (reply : llm_reply)
| Reformulated (reply : llm_reply)
| Navigated (direction : list N).

Definition step (MAX_MESSAGE_LENGTH : Z) (conv : conversation) (e : event)
  : conversation :=
  match e with
  | StyleChosen style reply => choose_style MAX_MESSAGE_LENGTH style reply conv
  | Reformulated reply => reformulate MAX_MESSAGE_LENGTH reply conv
  | Navigated direction => fst (nav direction conv)
  end.

(** The current index points at a version, or is 0 when there is none. *)
Definition index_ok (conv : conversation) : Prop :=
  match fluency_versions conv with
  | [] => current_version_index conv = 0
  | versions =>
      0 <= current_version_index conv < Z.of_nat (length versions)
  end.

End GrammarBot.

(** ** Notions the further properties are stated with *)

Module Notions.
Import Text MessageHandler UserManager.

(** *** What joining keeps of the fragments *)

(** The characters that joining may add or drop. *)
Definition is_joint (c : N) : bool :=
  is_char "-" c || is_char " " c || (c =? NL)%N.

Definition content (s : list N) : list N :=
  List.filter (fun c => negb (is_joint c)) s.

(** Total length of the fragments. *)
Definition total_len {Id : Type} (messages : list (list N * Id)) : Z :=
  foldr (fun m n => len (fst m) + n) 0 messages.

(** *** The splitter on text without tags *)

(** What the loop has made of the characters [seen] of a text without [<]:
    no tag is open, the chunks and the buffer are [seen] cut in pieces, and
    none is longer than the limit. *)
Definition cuts (max_length : Z) (seen : list N) (st : state) : Prop :=
  open_tags st = []
  /\ concat (parts st) ++ current_part st = seen
  /\ Forall (fun part => len part <= max_length) (parts st)
  /\ len (current_part st) <= max_length.

(** *** The markdown conversion *)

(** A character that no pattern of the conversion looks for. *)
Definition is_plain (c : N) : bool :=
  negb (is_char "*" c || is_char "_" c || is_char "\" c || (c =? NL)%N
        || is_char "<" c).

(** The character in front of what follows [s], [before] being in front of
    [s]. *)
Definition before_end (before : option N) (s : list N) : option N :=
  match last s with
  | Some c => Some c
  | None => before
  end.

(** *** The user store over a sequence of calls *)

(** The usage reported for [uid] by a sequence of calls. *)
Definition tokens_reported (uid : Z) (calls : list call) : Z :=
  foldr (fun c n =>
           match c with
           | UpdateTokens uid' used _ =>
               if bool_decide (uid' = uid) then used + n else n
           | _ => n
           end) 0 calls.

(** The write of the call, when it is one that writes, went through. *)
Definition written (c : call) : bool :=
  match c with
  | AddUser _ _ _ _ Written | UpdateTokens _ _ Written
  | UpdateLastActivity _ _ Written | SaveUsers Written => true
  | AddUser _ _ _ _ _ | UpdateTokens _ _ _ | UpdateLastActivity _ _ _
  | SaveUsers _ => false
  | _ => true
  end.

(** Reading the data file gives the users the manager holds. *)
Definition restorable (um : t) : Prop := users (load_users um) = users um.

End Notions.

(** ** Facts about the text primitives *)

Module TextFacts.
Import Text.

Lemma rstrip_snoc p s c :
  rstrip p (s ++ [c]) = if p c then rstrip p s else s ++ [c].
Proof.
  induction s as [|a s IH]; simpl.
  - reflexivity.
  - rewrite IH. destruct (p c); [reflexivity|].
    destruct s; reflexivity.
Qed.

Lemma rstrip_nil p s : rstrip p s = [] <-> forallb p s = true.
Proof.
  induction s as [|a s IH]; simpl; [tauto|].
  destruct (rstrip p s) eqn:E.
  - destruct (p a); simpl; [tauto|]. split; discriminate.
  - split; [discriminate|]. intros H. apply andb_prop in H as [_ H].
    apply IH in H. discriminate.
Qed.

Lemma last_rstrip_lstrip p s :
  last (rstrip p (lstrip p s)) = last (rstrip p s).
Proof.
  induction s as [|a s IH]; simpl; [reflexivity|].
  destruct (p a) eqn:Ha; simpl.
  - rewrite IH. destruct (rstrip p s); reflexivity.
  - rewrite Ha. reflexivity.
Qed.

Lemma len_nonneg s : 0 <= len s.
Proof. unfold len. lia. Qed.

Lemma len_app a b : len (a ++ b) = len a + len b.
Proof. unfold len. rewrite length_app. lia. Qed.

End TextFacts.

(** ** The coalescer *)

Module Coalescer.
Import Text MessageHandler Spec TextFacts.

(** Python's [rstrip] is the trimming of the specification. *)
Lemma rstrip_drop_while p s : rstrip p s = reverse (drop_while p (reverse s)).
Proof.
  induction s as [|c s IH] using rev_ind; [reflexivity|].
  rewrite rstrip_snoc, reverse_snoc. simpl.
  destruct (p c); [exact IH|].
  rewrite reverse_cons, reverse_involutive. reflexivity.
Qed.

Lemma ends_with_last p s :
  ends_with p s = match last s with Some c => p c | None => false end.
Proof.
  unfold ends_with. rewrite <- head_reverse.
  destruct (reverse s); reflexivity.
Qed.

Lemma match_spaces_eol_all s : match_spaces_eol s = forallb is_space s.
Proof.
  induction s as [|c r IH]; simpl; [reflexivity|].
  rewrite IH. destruct (c =? NL)%N eqn:E; simpl; [|reflexivity].
  apply N.eqb_eq in E. subst c.
  destruct r; reflexivity.
Qed.

Lemma sentence_punct_not_space c :
  is_sentence_punct c = true -> is_space c = false.
Proof.
  unfold is_sentence_punct, is_char. intros H.
  repeat (apply orb_prop in H as [H|H]);
    apply N.eqb_eq in H; subst c; reflexivity.
Qed.

(** The search for sentence punctuation followed by whitespace up to the
    end finds a match exactly when the text, right-trimmed, ends with
    sentence punctuation. *)
Lemma search_punct_eol_spec s :
  search_punct_eol s = endsWithSentencePunct s.
Proof.
  unfold endsWithSentencePunct, right_trimmed.
  rewrite <- rstrip_drop_while, ends_with_last.
  induction s as [|c r IH]; simpl; [reflexivity|].
  rewrite match_spaces_eol_all, IH.
  destruct (rstrip is_space r) as [|x r'] eqn:E.
  - apply rstrip_nil in E as ->. simpl. rewrite orb_false_r, andb_true_r.
    destruct (is_sentence_punct c) eqn:Hc.
    + rewrite (sentence_punct_not_space _ Hc). simpl. now rewrite Hc.
    + destruct (is_space c); simpl; [reflexivity | now rewrite Hc].
  - assert (forallb is_space r = false) as ->.
    { destruct (forallb is_space r) eqn:F; [|reflexivity].
      apply rstrip_nil in F. congruence. }
    rewrite andb_false_r. reflexivity.
Qed.

Lemma search_lower_start_spec s :
  search_lower_start s = startsAsciiLowercaseOrContinuation s.
Proof.
  destruct s as [|c r]; simpl; [reflexivity|].
  unfold is_char. rewrite <- !orb_assoc. f_equal.
  apply Bool.eq_iff_eq_true.
  rewrite bool_decide_eq_true, !orb_true_iff, !N.eqb_eq, !elem_of_cons,
    elem_of_nil.
  tauto.
Qed.

Lemma hyphen_test_spec s : endswith (ch "-") (strip s) = endsWithHyphen s.
Proof.
  unfold endsWithHyphen, right_trimmed, endswith, strip.
  rewrite <- rstrip_drop_while, ends_with_last, last_rstrip_lstrip.
  reflexivity.
Qed.

(** One turn of the loop joins the current fragment as section 4.1 decides
    for the pair, with the start test of the code. *)
Lemma combine_step_spec accumulated previous current :
  combine_step accumulated previous current
  = join accumulated (decide_join previous current) current.
Proof.
  unfold combine_step, decide_join, join, without_trailing_hyphens.
  rewrite search_punct_eol_spec, search_lower_start_spec, hyphen_test_spec,
    rstrip_drop_while.
  destruct (negb (endsWithSentencePunct previous)
            || startsAsciiLowercaseOrContinuation current);
    [destruct (endsWithHyphen previous)|]; reflexivity.
Qed.

(** The indexed loop over [range(1, len(message_texts))] walks the adjacent
    pairs from left to right. *)
Lemma loop_pairs (texts : list (list N)) m : forall k accumulated,
  (S k + m <= length texts)%nat ->
  fold_left
    (fun combined_text i =>
       combine_step combined_text (nth (i - 1) texts []) (nth i texts []))
    (seq (S k) m) accumulated
  = coalesce_from accumulated (nth k texts []) (take m (drop (S k) texts)).
Proof.
  induction m as [|m IH]; intros k accumulated Hk; simpl.
  - reflexivity.
  - destruct (lookup_lt_is_Some_2 texts (S k)) as [current Hc]; [lia|].
    rewrite (drop_S _ _ _ Hc). simpl.
    rewrite Nat.sub_0_r, IH by lia.
    rewrite combine_step_spec.
    rewrite (nth_lookup_Some _ _ _ _ Hc). reflexivity.
Qed.

(** On two fragments or more, [combine_messages] joins each adjacent pair,
    left to right, by the steps of section 4.1 taken with the start test of
    the code: a continuation when the previous text, right-trimmed, does not
    end with one of [.!?] or the current text starts with one of [a] to
    [z], a comma, a semicolon or a colon (merged without its trailing
    hyphens when the previous text, right-trimmed, ends with a hyphen,
    joined by one space otherwise); a new paragraph after two newlines
    otherwise.  The ids come back in order. *)
Theorem combine_messages_pairwise {Id : Type}
    (messages : list (list N * Id)) :
  (2 <= length messages)%nat ->
  combine_messages messages = coalesce messages.
Proof.
  intros Hlen.
  destruct messages as [|[first id1] [|[second id2] later]];
    simpl in Hlen; try lia.
  unfold combine_messages, coalesce.
  f_equal.
  set (texts := map fst ((first, id1) :: (second, id2) :: later)).
  replace (length texts - 1)%nat with (S (length later))
    by (unfold texts; simpl; rewrite length_map; lia).
  rewrite (loop_pairs texts (S (length later)) 0)
    by (unfold texts; simpl; rewrite length_map; lia).
  unfold texts. simpl. rewrite <- (length_map fst later), firstn_all.
  reflexivity.
Qed.

Lemma combine_messages_pairwise_witness :
  (2 <= length [(py "Done.", 1%nat); (py "Next topic.", 2%nat);
                (py "and more", 3%nat)])%nat
  /\ combine_messages [(py "Done.", 1%nat); (py "Next topic.", 2%nat);
                       (py "and more", 3%nat)]
     = coalesce [(py "Done.", 1%nat); (py "Next topic.", 2%nat);
                 (py "and more", 3%nat)].
Proof.
  split; [simpl; lia|].
  apply (combine_messages_pairwise
           [(py "Done.", 1%nat); (py "Next topic.", 2%nat);
            (py "and more", 3%nat)]).
  simpl; lia.
Defined.

(** C5: after [Done.], a fragment that starts with a lowercase letter
    outside [a] to [z] is not taken as a continuation.  [école] (é is code
    point 233) and [яблоко] (я is code point 1103) are put after two
    newlines, as a separate paragraph, where [ecole] is joined by a space:
    the pattern of the code finds only [a] to [z], a comma, a semicolon or a
    colon at the start, while its comment and the claim say a lowercase
    letter. *)
Theorem combine_messages_lowercase_beyond_az :
  combine_messages [(py "Done.", 1); (233%N :: py "cole", 2)]
  = (py "Done." ++ [NL; NL] ++ 233%N :: py "cole", [1; 2])
  /\ combine_messages
       [(py "Done.", 1); ([1103; 1073; 1083; 1086; 1082; 1086]%N, 2)]
     = (py "Done." ++ [NL; NL] ++ [1103; 1073; 1083; 1086; 1082; 1086]%N,
        [1; 2])
  /\ combine_messages [(py "Done.", 1); (py "ecole", 2)]
     = (py "Done. ecole", [1; 2]).
Proof. vm_compute. repeat split. Qed.

(** C4, as the code has it: the two fragments of a word broken at a hyphen
    are merged without separator and without the hyphen, which
    [rstrip('-')] removes from the accumulated text; the ids are [1, 2]. *)
Theorem combine_messages_hyphen :
  combine_messages [(py "This is a well-", 1); (py "known fact.", 2)]
  = (py "This is a wellknown fact.", [1; 2]).
Proof. vm_compute. reflexivity. Qed.

(** C4, as stated: the combined text is not the one that keeps the hyphen. *)
Lemma combine_messages_hyphen_kept_refuted :
  combine_messages [(py "This is a well-", 1); (py "known fact.", 2)]
  <> (py "This is a well-known fact.", [1; 2]).
Proof. vm_compute. discriminate. Qed.

(** C9: on no fragment at all, [combine_messages] returns the empty text and
    the empty id list. *)
Theorem combine_messages_empty (Id : Type) :
  combine_messages (@nil (list N * Id)) = ([], []).
Proof. reflexivity. Qed.

(** The other examples of the specification. *)
Example combine_single :
  combine_messages [(py "Hello world.", 1)] = (py "Hello world.", [1]).
Proof. reflexivity. Qed.

Example combine_lowercase :
  combine_messages [(py "I went to the store", 1); (py "and bought milk.", 2)]
  = (py "I went to the store and bought milk.", [1; 2]).
Proof. vm_compute. reflexivity. Qed.

Example combine_paragraphs :
  combine_messages [(py "Done.", 1); (py "Next topic.", 2)]
  = (py "Done." ++ [NL; NL] ++ py "Next topic.", [1; 2]).
Proof. vm_compute. reflexivity. Qed.

End Coalescer.

(** ** The splitter *)

Module Splitter.
Import Text MessageHandler Spec TextFacts.

(** *** The tag patterns *)

Lemma span_alnum_app s name after :
  span_alnum s = (name, after) -> s = name ++ after.
Proof.
  revert name after. induction s as [|c r IH]; simpl; intros name after H.
  - now inversion H.
  - destruct (is_alnum c).
    + destruct (span_alnum r) as [a b]. inversion H; subst.
      simpl. f_equal. now apply IH.
    + now inversion H.
Qed.

Lemma open_tag_match_pos s name n :
  open_tag_match s = Some (name, n) -> (0 < n)%nat.
Proof.
  unfold open_tag_match. intros H.
  repeat (case_match; simplify_eq); lia.
Qed.

(** A closing tag is the text [</name>], and is not an opening tag. *)
Lemma close_tag_match_text s name n :
  close_tag_match s = Some (name, n) ->
  s = py "</" ++ name ++ py ">" ++ drop n s
  /\ take n s = py "</" ++ name ++ py ">"
  /\ (0 < n)%nat
  /\ head s = Some (ch "<")
  /\ open_tag_match s = None.
Proof.
  unfold close_tag_match. intros H.
  destruct s as [|lt [|sl [|c r]]]; try discriminate.
  destruct (is_char "<" lt) eqn:E1; try discriminate.
  destruct (is_char "/" sl) eqn:E2; try discriminate.
  destruct (is_letter c) eqn:E3; try discriminate. simpl in H.
  destruct (span_alnum r) as [name_tl after] eqn:E4.
  destruct after as [|x after']; try discriminate.
  destruct (is_char ">" x) eqn:E5; try discriminate.
  inversion H; subst. clear H.
  apply N.eqb_eq in E1, E2, E5. subst lt sl x.
  apply span_alnum_app in E4. subst r.
  assert (Hs : ch "<" :: ch "/" :: c :: name_tl ++ ch ">" :: after'
               = (py "</" ++ (c :: name_tl) ++ py ">") ++ after').
  { simpl. do 3 f_equal. rewrite <- app_assoc. reflexivity. }
  assert (Hn : (3 + length (c :: name_tl))%nat
               = length (py "</" ++ (c :: name_tl) ++ py ">")).
  { rewrite !length_app. simpl. lia. }
  rewrite Hs, (drop_app_length' _ _ _ Hn), (take_app_length' _ _ _ Hn).
  repeat split; try reflexivity.
  - rewrite <- !app_assoc. reflexivity.
  - lia.
Qed.

(** *** The loop always ends *)

Lemma scan_shrinks text_i st :
  text_i <> [] -> (length (snd (scan text_i st)) < length text_i)%nat.
Proof.
  destruct text_i as [|c rest]; [congruence|]. intros _.
  unfold scan.
  destruct (is_char "<" c); [|simpl; lia].
  destruct (open_tag_match (c :: rest)) as [[tag_name tag_length]|] eqn:Eo.
  - apply open_tag_match_pos in Eo. cbn [snd].
    rewrite length_drop. simpl. lia.
  - destruct (close_tag_match (c :: rest)) as [[tag_name tag_length]|] eqn:Ec;
      [|simpl; lia].
    apply close_tag_match_text in Ec as (_ & _ & Hpos & _). cbn [snd].
    rewrite length_drop. simpl. lia.
Qed.

Lemma loop_total fuel : forall max_length text_i st,
  (length text_i <= fuel)%nat ->
  exists st', loop fuel max_length text_i st = Some st'.
Proof.
  induction fuel as [|fuel IH]; intros max_length text_i st Hlen.
  - destruct text_i; [eauto | simpl in Hlen; lia].
  - destruct text_i as [|c rest]; [simpl; eauto|].
    cbn [loop].
    pose proof (scan_shrinks (c :: rest) (flush max_length st)) as Hs.
    destruct (scan (c :: rest) (flush max_length st)) as [st1 text1].
    apply IH. simpl in Hs, Hlen.
    assert (c :: rest <> []) as Hne by congruence.
    specialize (Hs Hne). lia.
Qed.

Lemma split_response_total MAX_MESSAGE_LENGTH text max_length :
  exists chunks,
    split_response MAX_MESSAGE_LENGTH text max_length = Some chunks.
Proof.
  unfold split_response.
  destruct (len text <=? default MAX_MESSAGE_LENGTH max_length); [eauto|].
  destruct (loop_total (length text)
              (default MAX_MESSAGE_LENGTH max_length) text
              {| parts := []; current_part := []; open_tags := [] |})
    as [st' ->]; [lia|].
  eauto.
Qed.


(** C7: a text no longer than the limit comes back alone and unchanged. *)
Theorem split_response_identity MAX_MESSAGE_LENGTH (s : list N) (n : Z) :
  len s <= n -> split_response MAX_MESSAGE_LENGTH s (Some n) = Some [s].
Proof.
  intros H. unfold split_response. simpl.
  apply Z.leb_le in H. rewrite H. reflexivity.
Qed.

Lemma split_response_identity_witness :
  len (py "<b>Hi.</b> ok") <= 13
  /\ split_response 4000 (py "<b>Hi.</b> ok") (Some 13)
     = Some [py "<b>Hi.</b> ok"].
Proof.
  split; [vm_compute; discriminate|].
  apply (split_response_identity 4000 (py "<b>Hi.</b> ok") 13).
  vm_compute; discriminate.
Defined.



(** *** The break point *)

Lemma rfind_from_rightmost c s : forall i best,
  rfind_from c s i best
  = match rightmost (fun x => (x =? c)%N) s with
    | Some k => i + Z.of_nat k
    | None => best
    end.
Proof.
  induction s as [|x r IH]; intros i best; simpl; [reflexivity|].
  rewrite IH. destruct (rightmost _ r); [lia|].
  destruct (x =? c)%N; lia.
Qed.

(** [rfind] gives the rightmost position of its character, or [-1]. *)
Lemma rfind_rightmost a s :
  rfind (ch a) s = position (rightmost (is_char a) s).
Proof.
  unfold rfind, is_char. rewrite rfind_from_rightmost.
  destruct (rightmost _ s); reflexivity.
Qed.

Lemma rightmost_orb p q s :
  position (rightmost (fun c => p c || q c) s)
  = Z.max (position (rightmost p s)) (position (rightmost q s)).
Proof.
  induction s as [|x r IH]; simpl; [reflexivity|].
  destruct (rightmost (fun c => p c || q c) r), (rightmost p r),
    (rightmost q r), (p x), (q x); simpl in *; lia.
Qed.

(** What [rightmost] returns is a position of the wanted kind with none
    after it. *)
Lemma rightmost_Some p s k :
  rightmost p s = Some k <->
  (exists c, s !! k = Some c /\ p c = true)
  /\ (forall j c, (k < j)%nat -> s !! j = Some c -> p c = false).
Proof.
  revert k. induction s as [|x r IH]; intros k; simpl.
  - split; [discriminate|]. intros [[c [H _]] _]. discriminate.
  - destruct (rightmost p r) as [k'|] eqn:E.
    + destruct (proj1 (IH k') eq_refl) as [[c [Hc Hp]] Hafter].
      split.
      * intros [= <-]. split; [eauto|].
        intros [|j] d Hj Hd; [lia|]. apply (Hafter j d); [lia|exact Hd].
      * intros [[d [Hd Hpd]] Hlast]. f_equal.
        destruct k as [|k].
        { specialize (Hlast (S k') c). simpl in Hlast.
          rewrite Hlast in Hp; [discriminate|lia|exact Hc]. }
        f_equal. simpl in Hd.
        destruct (Nat.lt_trichotomy k k') as [Hlt|[->|Hgt]]; [|reflexivity|].
        -- specialize (Hlast (S k') c). simpl in Hlast.
           rewrite Hlast in Hp; [discriminate|lia|exact Hc].
        -- rewrite (Hafter k d) in Hpd; [discriminate|lia|exact Hd].
    + assert (Hnone : forall j c, r !! j = Some c -> p c = false).
      { intros j c Hj. destruct (p c) eqn:Hp; [|reflexivity].
        exfalso. clear IH. revert j Hj.
        induction r as [|y r IHr]; intros j Hj; [destruct j; discriminate|].
        simpl in E. destruct (rightmost p r); [discriminate|].
        destruct j as [|j]; simpl in Hj.
        - injection Hj as ->. rewrite Hp in E. discriminate.
        - apply (IHr eq_refl j Hj). }
      destruct (p x) eqn:Hx.
      * split.
        -- intros [= <-]. split; [eauto|].
           intros [|j] d Hj Hd; [lia|]. apply (Hnone j d Hd).
        -- intros [[d [Hd Hpd]] _]. destruct k as [|k]; [reflexivity|].
           simpl in Hd. rewrite (Hnone k d Hd) in Hpd. discriminate.
      * split; [discriminate|].
        intros [[d [Hd Hpd]] _]. destruct k as [|k]; simpl in Hd.
        -- injection Hd as ->. congruence.
        -- rewrite (Hnone k d Hd) in Hpd. discriminate.
Qed.

(** Case analysis on the tests of a conditional, innermost first, and their
    reading as (in)equalities. *)
Ltac split_tests :=
  repeat match goal with
         | |- context [if ?b then _ else _] =>
             lazymatch b with
             | context [if _ then _ else _] => fail
             | _ => destruct b eqn:?
             end
         end.

Ltac tests_to_Prop :=
  repeat match goal with
         | H : _ || _ = true |- _ => apply orb_true_iff in H
         | H : _ || _ = false |- _ => apply orb_false_iff in H
         | H : (_ =? _) = true |- _ => apply Z.eqb_eq in H
         | H : (_ =? _) = false |- _ => apply Z.eqb_neq in H
         | H : (_ <? _) = true |- _ => apply Z.ltb_lt in H
         | H : (_ <? _) = false |- _ => apply Z.ltb_ge in H
         end.

(** The code's cascade of tests computes the break of the specification. *)
Lemma break_point_spec buffer max_length :
  break_point buffer max_length = break_after buffer max_length.
Proof.
  unfold break_point, break_after, not_too_early.
  rewrite !rfind_rightmost, <- !rightmost_orb.
  change (fun c => is_char "." c || is_char "!" c || is_char "?" c)
    with is_sentence_punct.
  destruct (rightmost is_sentence_punct buffer) as [k|];
    destruct (rightmost (is_char " ") buffer) as [j|]; simpl;
    split_tests; tests_to_Prop; intuition lia.
Qed.

Lemma break_after_range buffer max_length :
  0 <= break_after buffer max_length.
Proof.
  unfold break_after, not_too_early.
  pose proof (len_nonneg buffer).
  repeat case_match; simplify_eq; lia.
Qed.

(** The buffer is cut where the specification breaks it. *)
Lemma flush_full max_length st :
  max_length <= len (current_part st) ->
  let break := Z.to_nat (break_after (current_part st) max_length) in
  flush max_length st
  = {| parts :=
         parts st
         ++ [take break (current_part st) ++ closing_tags (open_tags st)];
       current_part :=
         opening_tags (open_tags st) ++ drop break (current_part st);
       open_tags := open_tags st |}.
Proof.
  intros Hfull break. unfold flush.
  destruct (Z.geb_spec (len (current_part st)) max_length) as [_|?]; [|lia].
  rewrite break_point_spec.
  unfold slice_to, slice_from, slice_index.
  pose proof (break_after_range (current_part st) max_length) as Hb.
  destruct (Z.ltb_spec (break_after (current_part st) max_length) 0);
    [lia|reflexivity].
Qed.

(** C6: when the buffer has reached the limit, the loop emits the buffer up
    to the break of the specification (the rightmost of [.!?] unless it lies
    before [max_length - 200], else the rightmost space unless it lies
    before [max_length - 300], else the last position of the buffer; then
    one further, so that the character at the break is emitted too), with
    the closing tags appended, and keeps the rest for the next chunk. *)
Theorem flush_breaks_by_priority max_length st :
  max_length <= len (current_part st) ->
  let break := Z.to_nat (break_after (current_part st) max_length) in
  break_point (current_part st) max_length
  = break_after (current_part st) max_length
  /\ flush max_length st
     = {| parts :=
            parts st
            ++ [take break (current_part st) ++ closing_tags (open_tags st)];
          current_part :=
            opening_tags (open_tags st) ++ drop break (current_part st);
          open_tags := open_tags st |}.
Proof.
  intros Hfull break. split; [apply break_point_spec|].
  apply flush_full, Hfull.
Qed.

Lemma flush_breaks_by_priority_witness :
  flush 8 {| parts := []; current_part := py "Hi. <b>a";
             open_tags := [py "b"] |}
  = {| parts := [py "Hi.</b>"]; current_part := py "<b> <b>a";
       open_tags := [py "b"] |}.
Proof.
  apply (flush_breaks_by_priority 8
           {| parts := []; current_part := py "Hi. <b>a";
              open_tags := [py "b"] |}).
  vm_compute; discriminate.
Defined.

(** *** Markup whose tags carry no attribute *)

Lemma is_char_ch a : is_char a (ch a) = true.
Proof. apply N.eqb_refl. Qed.

Lemma render_app ps qs : render (ps ++ qs) = render ps ++ render qs.
Proof. unfold render. rewrite map_app, concat_app. reflexivity. Qed.

Lemma render_cons p ps : render (p :: ps) = render_piece p ++ render ps.
Proof. reflexivity. Qed.

Lemma literals_app ps qs : literals (ps ++ qs) = literals ps ++ literals qs.
Proof. apply omap_app. Qed.

Lemma span_alnum_name name x s :
  forallb is_alnum name = true -> is_alnum x = false ->
  span_alnum (name ++ x :: s) = (name, x :: s).
Proof.
  intros Hn Hx. induction name as [|c r IH]; simpl in *.
  - rewrite Hx. reflexivity.
  - apply andb_prop in Hn as [Hc Hr]. rewrite Hc, (IH Hr). reflexivity.
Qed.

Lemma open_tag_match_render name s :
  tag_name_ok name = true ->
  open_tag_match (render_piece (Opening name) ++ s)
  = Some (name, (2 + length name)%nat).
Proof.
  destruct name as [|c r]; [discriminate|]. simpl. intros H.
  apply andb_prop in H as [Hc Hr].
  rewrite ?is_char_ch, Hc, <- app_assoc.
  change (py ">" ++ s) with (ch ">" :: s).
  rewrite (span_alnum_name r (ch ">") s Hr eq_refl).
  rewrite ?is_char_ch. reflexivity.
Qed.

Lemma close_tag_match_render name s :
  tag_name_ok name = true ->
  close_tag_match (render_piece (Closing name) ++ s)
  = Some (name, (3 + length name)%nat).
Proof.
  destruct name as [|c r]; [discriminate|]. simpl. intros H.
  apply andb_prop in H as [Hc Hr].
  rewrite ?is_char_ch, Hc, <- app_assoc.
  change (py ">" ++ s) with (ch ">" :: s).
  rewrite (span_alnum_name r (ch ">") s Hr eq_refl).
  rewrite ?is_char_ch. reflexivity.
Qed.

Lemma close_not_open name s :
  open_tag_match (render_piece (Closing name) ++ s) = None.
Proof. destruct name; reflexivity. Qed.

Lemma length_render_opening name :
  length (render_piece (Opening name)) = (2 + length name)%nat.
Proof. simpl. rewrite length_app. simpl. lia. Qed.

Lemma length_render_closing name :
  length (render_piece (Closing name)) = (3 + length name)%nat.
Proof. simpl. rewrite length_app. simpl. lia. Qed.

(** The last two characters of [<name>] are not [/>]. *)
Lemma opening_not_self_closing name s :
  tag_name_ok name = true ->
  str_eqb (take 2 (drop (2 + length name - 2)
                     (render_piece (Opening name) ++ s))) (py "/>") = false.
Proof.
  intros H.
  assert (Hname : exists a z, name = a ++ [z] /\ is_alnum z = true).
  { induction name as [|z a _] using rev_ind; [discriminate|].
    exists a, z. split; [reflexivity|].
    destruct a as [|d a]; simpl in H.
    - apply andb_prop in H as [H _]. unfold is_alnum. now rewrite H.
    - apply andb_prop in H as [_ H]. rewrite forallb_app in H.
      apply andb_prop in H as [_ H]. simpl in H. now rewrite andb_true_r in H. }
  destruct Hname as (a & z & -> & Hz).
  replace (2 + length (a ++ [z]) - 2)%nat with (length (ch "<" :: a))
    by (rewrite length_app; simpl; lia).
  replace (render_piece (Opening (a ++ [z])) ++ s)
    with ((ch "<" :: a) ++ z :: ch ">" :: s)
    by (simpl; rewrite <- !app_assoc; reflexivity).
  rewrite drop_app_length. simpl.
  destruct (z =? ch "/")%N eqn:E; [|reflexivity].
  apply N.eqb_eq in E. subst z. discriminate.
Qed.

Lemma tokens_from_skip a s : tokens_from (length a) (a ++ s) = tokens_from 0 s.
Proof. induction a as [|x a IH]; [reflexivity|exact IH]. Qed.

Lemma tag_at_literal c s : is_char "<" c = false -> tag_at (c :: s) = None.
Proof.
  intros H. unfold tag_at, open_tag_match, close_tag_match.
  destruct s as [|x [|y s]]; rewrite ?H; reflexivity.
Qed.

Lemma tag_at_opening name s :
  tag_name_ok name = true ->
  tag_at (render_piece (Opening name) ++ s)
  = Some (OpenTag name false, (2 + length name)%nat).
Proof.
  intros H. unfold tag_at.
  rewrite (open_tag_match_render _ _ H), (opening_not_self_closing _ _ H).
  reflexivity.
Qed.

Lemma tag_at_closing name s :
  tag_name_ok name = true ->
  tag_at (render_piece (Closing name) ++ s)
  = Some (CloseTag name, (3 + length name)%nat).
Proof.
  intros H. unfold tag_at.
  rewrite close_not_open, (close_tag_match_render _ _ H). reflexivity.
Qed.

(** A rendered piece is read back as one token. *)
Lemma tokens_piece p s :
  piece_ok p = true ->
  tokens (render_piece p ++ s) = token_of p :: tokens s.
Proof.
  intros H. unfold tokens. destruct p as [c|name|name]; simpl in H.
  - apply negb_true_iff in H. simpl. rewrite (tag_at_literal _ _ H).
    reflexivity.
  - pose proof (tag_at_opening name s H) as Ht.
    change (render_piece (Opening name) ++ s)
      with (ch "<" :: (name ++ py ">") ++ s) in *.
    cbn [tokens_from]. rewrite Ht. f_equal.
    replace (2 + length name - 1)%nat with (length (name ++ py ">"))
      by (rewrite length_app; simpl; lia).
    apply tokens_from_skip.
  - pose proof (tag_at_closing name s H) as Ht.
    change (render_piece (Closing name) ++ s)
      with (ch "<" :: (ch "/" :: name ++ py ">") ++ s) in *.
    cbn [tokens_from]. rewrite Ht. f_equal.
    replace (3 + length name - 1)%nat
      with (length (ch "/" :: name ++ py ">"))
      by (simpl; rewrite length_app; simpl; lia).
    apply tokens_from_skip.
Qed.

Lemma tokens_render ps s :
  Forall (fun p => piece_ok p = true) ps ->
  tokens (render ps ++ s) = map token_of ps ++ tokens s.
Proof.
  induction 1 as [|p ps Hp _ IH]; [reflexivity|].
  rewrite render_cons, <- app_assoc, (tokens_piece _ _ Hp), IH. reflexivity.
Qed.

(** The visible text of rendered pieces is their literal characters. *)
Lemma visible_text_render ps :
  Forall (fun p => piece_ok p = true) ps ->
  visible_text (render ps) = literals ps.
Proof.
  intros H. unfold visible_text, literals.
  rewrite <- (app_nil_r (render ps)), (tokens_render _ _ H), app_nil_r.
  clear H. induction ps as [|[c|name|name] ps IH]; csimpl; congruence.
Qed.

(** One turn of the loop body reads one piece. *)
Lemma scan_piece p s st :
  piece_ok p = true ->
  scan (render_piece p ++ s) st
  = ({| parts := parts st;
        current_part := current_part st ++ render_piece p;
        open_tags := track p (open_tags st) |}, s).
Proof.
  intros H. destruct p as [c|name|name]; simpl in H.
  - apply negb_true_iff in H. simpl. rewrite H. reflexivity.
  - pose proof (open_tag_match_render name s H) as Ho.
    pose proof (opening_not_self_closing name s H) as Hs.
    pose proof (length_render_opening name) as Hl.
    remember (render_piece (Opening name)) as tag_text eqn:Et.
    assert (Hcons : exists rest, tag_text ++ s = ch "<" :: rest)
      by (subst tag_text; eexists; reflexivity).
    destruct Hcons as [rest Hcons]. rewrite Hcons in *.
    unfold scan. rewrite is_char_ch, Ho, Hs. cbn [negb].
    rewrite <- Hcons, take_app_length', drop_app_length'
      by (symmetry; exact Hl).
    reflexivity.
  - pose proof (close_tag_match_render name s H) as Hc.
    pose proof (close_not_open name s) as Ho.
    pose proof (length_render_closing name) as Hl.
    remember (render_piece (Closing name)) as tag_text eqn:Et.
    assert (Hcons : exists rest, tag_text ++ s = ch "<" :: rest)
      by (subst tag_text; eexists; reflexivity).
    destruct Hcons as [rest Hcons]. rewrite Hcons in *.
    unfold scan. rewrite is_char_ch, Ho, Hc.
    rewrite <- Hcons, take_app_length', drop_app_length'
      by (symmetry; exact Hl).
    cbn [add_text open_tags track].
    destruct (top_is name (open_tags st)); reflexivity.
Qed.

Lemma name_chars_alnum name c :
  tag_name_ok name = true -> c ∈ name -> is_alnum c = true.
Proof.
  destruct name as [|d r]; [discriminate|]. simpl. intros H Hc.
  apply andb_prop in H as [Hd Hr].
  apply elem_of_cons in Hc as [->|Hc].
  - unfold is_alnum. now rewrite Hd.
  - rewrite forallb_forall in Hr. apply Hr, list_elem_of_In, Hc.
Qed.

(** Only a literal gives a character that no tag is made of. *)
Lemma piece_char p k c :
  piece_ok p = true -> render_piece p !! k = Some c ->
  is_markup_char c = false -> p = Lit c /\ k = 0%nat.
Proof.
  intros Hok Hk Hc. destruct p as [d|name|name]; simpl in Hok, Hk.
  - destruct k; [|discriminate]. now inversion Hk.
  - exfalso. apply list_elem_of_lookup_2 in Hk.
    unfold is_markup_char in Hc.
    apply elem_of_cons in Hk as [->|Hk]; [discriminate|].
    apply elem_of_app in Hk as [Hk|Hk].
    + now rewrite (name_chars_alnum _ _ Hok Hk) in Hc.
    + apply list_elem_of_singleton in Hk as ->. discriminate.
  - exfalso. apply list_elem_of_lookup_2 in Hk.
    unfold is_markup_char in Hc.
    apply elem_of_cons in Hk as [->|Hk]; [discriminate|].
    apply elem_of_cons in Hk as [->|Hk]; [discriminate|].
    apply elem_of_app in Hk as [Hk|Hk].
    + now rewrite (name_chars_alnum _ _ Hok Hk) in Hc.
    + apply list_elem_of_singleton in Hk as ->. discriminate.
Qed.

(** A character that no tag is made of stands between two pieces. *)
Lemma cut_at_literal ps : forall k c,
  pieces_ok ps -> render ps !! k = Some c -> is_markup_char c = false ->
  exists ps1 ps2, ps = ps1 ++ Lit c :: ps2 /\ length (render ps1) = k.
Proof.
  induction ps as [|p ps IH]; intros k c Hok Hk Hc; [discriminate|].
  apply Forall_cons in Hok as [Hp Hps]. rewrite render_cons in Hk.
  destruct (decide (k < length (render_piece p))%nat) as [Hlt|Hge].
  - rewrite lookup_app_l in Hk by exact Hlt.
    destruct (piece_char _ _ _ Hp Hk Hc) as [-> ->].
    exists [], ps. split; reflexivity.
  - rewrite lookup_app_r in Hk by lia.
    destruct (IH _ _ Hps Hk Hc) as (ps1 & ps2 & -> & Hlen).
    exists (p :: ps1), ps2. split; [reflexivity|].
    rewrite render_cons, length_app. lia.
Qed.

Lemma not_too_early_Some candidate earliest k :
  not_too_early candidate earliest = Some k ->
  exists k', candidate = Some k' /\ k = Z.of_nat k'.
Proof.
  unfold not_too_early. destruct candidate as [k'|]; [|discriminate].
  destruct (_ <? _); [discriminate|]. intros [= <-]. eauto.
Qed.

Lemma punct_not_markup c :
  is_sentence_punct c = true \/ is_char " " c = true ->
  is_markup_char c = false.
Proof.
  unfold is_sentence_punct, is_char. intros [H|H].
  - repeat (apply orb_prop in H as [H|H]);
      apply N.eqb_eq in H; subst c; reflexivity.
  - apply N.eqb_eq in H; subst c; reflexivity.
Qed.

(** The break of a buffer made of whole pieces falls between two pieces. *)
Lemma break_between_pieces cur max_length :
  pieces_ok cur ->
  let break := Z.to_nat (break_after (render cur) max_length) in
  exists cur1 cur2,
    cur = cur1 ++ cur2
    /\ take break (render cur) = render cur1
    /\ drop break (render cur) = render cur2.
Proof.
  intros Hok break.
  assert (Hcut : forall p k,
             (p = is_sentence_punct \/ p = is_char " ") ->
             rightmost p (render cur) = Some k ->
             exists cur1 cur2,
               cur = cur1 ++ cur2
               /\ take (S k) (render cur) = render cur1
               /\ drop (S k) (render cur) = render cur2).
  { intros p k Hp Hk. apply rightmost_Some in Hk as [(c & Hc & Hpc) _].
    assert (Hm : is_markup_char c = false).
    { apply punct_not_markup. destruct Hp as [-> | ->]; auto. }
    destruct (cut_at_literal _ _ _ Hok Hc Hm) as (ps1 & ps2 & -> & Hlen).
    exists (ps1 ++ [Lit c]), ps2.
    assert (Hl : S k = length (render (ps1 ++ [Lit c]))).
    { rewrite render_app, length_app. simpl. lia. }
    split; [now rewrite <- app_assoc|].
    replace (ps1 ++ Lit c :: ps2) with ((ps1 ++ [Lit c]) ++ ps2)
      by now rewrite <- app_assoc.
    rewrite (render_app (ps1 ++ [Lit c])).
    rewrite (take_app_length' _ _ _ Hl), (drop_app_length' _ _ _ Hl).
    split; reflexivity. }
  subst break. unfold break_after.
  destruct (not_too_early (rightmost is_sentence_punct _) _) as [k|] eqn:E1.
  - apply not_too_early_Some in E1 as (k' & E1 & ->).
    replace (Z.to_nat (Z.of_nat k' + 1)) with (S k') by lia.
    apply (Hcut is_sentence_punct k'); [left; reflexivity | exact E1].
  - destruct (not_too_early (rightmost (is_char " ") _) _) as [k|] eqn:E2.
    + apply not_too_early_Some in E2 as (k' & E2 & ->).
      replace (Z.to_nat (Z.of_nat k' + 1)) with (S k') by lia.
      apply (Hcut (is_char " ") k'); [right; reflexivity | exact E2].
    + replace (Z.to_nat (len (render cur) - 1 + 1))
        with (length (render cur)) by (unfold len; lia).
      exists cur, []. rewrite app_nil_r, firstn_all, drop_all.
      repeat split.
Qed.

Lemma closing_tags_render tags :
  closing_tags tags = render (map Closing (reverse tags)).
Proof. unfold closing_tags, render. rewrite map_map. reflexivity. Qed.

Lemma opening_tags_render tags :
  opening_tags tags = render (map Opening tags).
Proof. unfold opening_tags, render. rewrite map_map. reflexivity. Qed.

Lemma literals_tags (f : list N -> piece) tags :
  (forall name, literal (f name) = None) -> literals (map f tags) = [].
Proof.
  intros Hf. induction tags as [|t tags IH]; [reflexivity|].
  unfold literals in *. csimpl. rewrite Hf. exact IH.
Qed.

Lemma flush_reads max_length seen st :
  reads seen st -> reads seen (flush max_length st).
Proof.
  intros (qs & cur & Hqs & Hcur & Hparts & Hbuf & Hlit & Htags).
  destruct (Z.lt_ge_cases (len (current_part st)) max_length) as [Hlt|Hge].
  - unfold flush.
    destruct (Z.geb_spec (len (current_part st)) max_length); [lia|].
    exists qs, cur. auto 10.
  - rewrite (flush_full _ _ Hge). rewrite Hbuf.
    destruct (break_between_pieces cur max_length Hcur)
      as (cur1 & cur2 & -> & -> & ->).
    apply Forall_app in Hcur as [Hcur1 Hcur2].
    exists (qs ++ cur1 ++ map Closing (reverse (open_tags st))),
           (map Opening (open_tags st) ++ cur2).
    cbn [parts current_part open_tags].
    repeat split.
    + repeat apply Forall_app_2; auto.
      apply Forall_fmap, Forall_reverse. exact Htags.
    + apply Forall_app_2; auto. apply Forall_fmap. exact Htags.
    + rewrite concat_app, Hparts. simpl. rewrite app_nil_r.
      rewrite closing_tags_render, !render_app. reflexivity.
    + rewrite opening_tags_render, render_app. reflexivity.
    + rewrite <- Hlit, !literals_app.
      rewrite (literals_tags Closing), (literals_tags Opening)
        by reflexivity.
      rewrite app_nil_r. simpl. rewrite <- app_assoc. reflexivity.
    + exact Htags.
Qed.

Lemma track_names_ok p tags :
  piece_ok p = true -> names_ok tags -> names_ok (track p tags).
Proof.
  intros Hp Htags. destruct p as [c|name|name]; simpl.
  - exact Htags.
  - apply Forall_app_2; [exact Htags|]. constructor; [exact Hp|constructor].
  - destruct (top_is name tags); [|exact Htags].
    rewrite removelast_firstn_len. apply Forall_take, Htags.
Qed.

Lemma scan_reads p s seen st :
  piece_ok p = true -> reads seen st ->
  reads (seen ++ [p]) (fst (scan (render_piece p ++ s) st))
  /\ snd (scan (render_piece p ++ s) st) = s.
Proof.
  intros Hp (qs & cur & Hqs & Hcur & Hparts & Hbuf & Hlit & Htags).
  rewrite (scan_piece _ _ _ Hp). split; [|reflexivity].
  exists qs, (cur ++ [p]). cbn [fst parts current_part open_tags].
  repeat split; auto.
  - apply Forall_app_2; [exact Hcur|]. constructor; [exact Hp|constructor].
  - rewrite Hbuf, render_app. unfold render. simpl.
    rewrite app_nil_r. reflexivity.
  - rewrite !literals_app, app_assoc, Hlit. reflexivity.
  - apply track_names_ok; assumption.
Qed.

Lemma render_piece_cons p : exists c t, render_piece p = c :: t.
Proof. destruct p; simpl; eauto. Qed.

Lemma loop_reads max_length rest : forall fuel seen st st',
  pieces_ok rest -> reads seen st ->
  loop fuel max_length (render rest) st = Some st' ->
  reads (seen ++ rest) st'.
Proof.
  induction rest as [|p rest IH]; intros fuel seen st st' Hok Hst Hloop.
  - destruct fuel; simpl in Hloop; injection Hloop as <-;
      now rewrite app_nil_r.
  - apply Forall_cons in Hok as [Hp Hrest].
    rewrite render_cons in Hloop.
    destruct (render_piece_cons p) as (c & t & Hc).
    destruct fuel as [|fuel]; [rewrite Hc in Hloop; discriminate|].
    assert (Hstep : loop (S fuel) max_length (render_piece p ++ render rest) st
                    = loop fuel max_length (render rest)
                        (fst (scan (render_piece p ++ render rest)
                                (flush max_length st)))).
    { destruct (scan_reads p (render rest) seen (flush max_length st) Hp
                  (flush_reads max_length seen st Hst)) as [_ Hsnd].
      rewrite Hc in *. cbn [loop].
      destruct (scan _ _) as [st1 text1]. simpl in Hsnd. now subst. }
    rewrite Hstep in Hloop.
    replace (seen ++ p :: rest) with ((seen ++ [p]) ++ rest)
      by now rewrite <- app_assoc.
    eapply IH; [exact Hrest| |exact Hloop].
    apply scan_reads; [exact Hp|]. apply flush_reads, Hst.
Qed.

(** X4: on markup whose tags carry no attribute, the chunks put together
    and stripped of their tags are the text stripped of its tags. *)
Theorem split_response_visible_text_plain_tags MAX_MESSAGE_LENGTH ps limit :
  pieces_ok ps ->
  exists chunks,
    split_response MAX_MESSAGE_LENGTH (render ps) limit = Some chunks
    /\ visible_text (concat chunks) = visible_text (render ps).
Proof.
  intros Hok.
  destruct (split_response_total MAX_MESSAGE_LENGTH (render ps) limit)
    as [chunks Hsplit].
  exists chunks. split; [exact Hsplit|].
  unfold split_response in Hsplit.
  destruct (len (render ps) <=? default MAX_MESSAGE_LENGTH limit).
  - injection Hsplit as <-. simpl. now rewrite app_nil_r.
  - destruct (loop _ _ _ _) as [st|] eqn:Hloop; [|discriminate].
    assert (Hinit : reads [] {| parts := []; current_part := [];
                                open_tags := [] |}).
    { exists [], []. repeat split; constructor. }
    destruct (loop_reads _ _ _ _ _ _ Hok Hinit Hloop)
      as (qs & cur & Hqs & Hcur & Hparts & Hbuf & Hlit & _).
    assert (Hall : concat chunks = render (qs ++ cur)).
    { rewrite render_app, <- Hparts, <- Hbuf.
      injection Hsplit as <-.
      destruct (current_part st); [now rewrite app_nil_r|].
      rewrite concat_app. simpl. now rewrite app_nil_r. }
    rewrite Hall, !visible_text_render, literals_app; auto.
    apply Forall_app_2; assumption.
Qed.

(** *** Chunks that break the promises of the splitter *)

(** C1: on the well-formed text [Hi. <b>abcdef</b>] with limit 8, the first
    chunk closes a tag it never opened and the third is left with an open
    tag: the closing and reopening tags are those open where the scan
    stands, not where the buffer is cut. *)
Theorem split_response_chunk_unbalanced :
  well_formed (py "Hi. <b>abcdef</b>") = true
  /\ split_response 4000 (py "Hi. <b>abcdef</b>") (Some 8)
     = Some [py "Hi.</b>"; py "<b> </b>"; py "<b><b>abc</b>"; py "<b>def</b>"]
  /\ balanced (py "Hi.</b>") = false
  /\ open_stack (tokens (py "Hi.</b>")) [] = None
  /\ balanced (py "<b><b>abc</b>") = false
  /\ open_stack (tokens (py "<b><b>abc</b>")) [] = Some [py "b"].
Proof. vm_compute. repeat split; reflexivity. Qed.

(** The same with the default limit of 4000: a sentence end within the last
    200 characters of the buffer, followed by an opening tag. *)
Example split_response_chunk_unbalanced_default :
  let text :=
    replicate 3900 (ch "a") ++ py "." ++ py "<b>" ++ replicate 200 (ch "b")
    ++ py "</b>" in
  well_formed text = true
  /\ split_response 4000 text None
     = Some [replicate 3900 (ch "a") ++ py ".</b>";
             py "<b><b>" ++ replicate 200 (ch "b") ++ py "</b>"]
  /\ balanced (replicate 3900 (ch "a") ++ py ".</b>") = false
  /\ balanced (py "<b><b>" ++ replicate 200 (ch "b") ++ py "</b>") = false.
Proof. vm_compute. repeat split; reflexivity. Qed.

(** C2: on the well-formed text [<b>abcdefgh</b>] with limit 5, the chunks
    are longer than the limit: the buffer is cut at the limit and the closing
    tags are appended after the cut. *)
Theorem split_response_chunk_too_long :
  well_formed (py "<b>abcdefgh</b>") = true
  /\ split_response 4000 (py "<b>abcdefgh</b>") (Some 5)
     = Some [py "<b>ab</b>"; py "<b>cd</b>"; py "<b>ef</b>"; py "<b>gh</b>";
             py "<b></b>"]
  /\ len (py "<b>ab</b>") = 9
  /\ 5 < len (py "<b>ab</b>").
Proof. vm_compute. repeat split; reflexivity. Qed.

(** The same with the default limit of 4000. *)
Example split_response_chunk_too_long_default :
  let text := py "<b>" ++ replicate 4000 (ch "a") ++ py "</b>" in
  well_formed text = true
  /\ split_response 4000 text None
     = Some [py "<b>" ++ replicate 3997 (ch "a") ++ py "</b>";
             py "<b>" ++ replicate 3 (ch "a") ++ py "</b>"]
  /\ len (py "<b>" ++ replicate 3997 (ch "a") ++ py "</b>") = 4004.
Proof. vm_compute. repeat split; reflexivity. Qed.

(** C3: on the well-formed text [<a href='x.y'>abcdef</a>] with limit 16,
    the buffer is cut after the full stop inside the opening tag; the chunks
    put together and stripped of their tags are not the text stripped of its
    tags, be it with the tag patterns of the splitter or with the pattern
    [bot.py] strips tags with. *)
Theorem split_response_visible_text_changed :
  well_formed (py "<a href='x.y'>abcdef</a>") = true
  /\ split_response 4000 (py "<a href='x.y'>abcdef</a>") (Some 16)
     = Some [py "<a href='x.</a>"; py "<a>y'>abcdef</a>"]
  /\ visible_text (py "<a href='x.y'>abcdef</a>") = py "abcdef"
  /\ visible_text (py "<a href='x.</a>" ++ py "<a>y'>abcdef</a>")
     = py "y'>abcdef"
  /\ Bot.plain_text (py "<a href='x.y'>abcdef</a>") = py "abcdef"
  /\ Bot.plain_text (py "<a href='x.</a>" ++ py "<a>y'>abcdef</a>")
     = py "<a href='x.y'>abcdef".
Proof. vm_compute. repeat split; reflexivity. Qed.

End Splitter.

(** ** The user store *)

Module UserStore.
Import UserManager.

Lemma save_users_users w um : users (save_users w um) = users um.
Proof. destruct w; reflexivity. Qed.

Lemma save_users_max_users w um : max_users (save_users w um) = max_users um.
Proof. destruct w; reflexivity. Qed.

(** [add_user] turns down a user who is there already or who would exceed
    the limit, and leaves the manager alone. *)
Lemma add_user_refused um uid uname first now w :
  is_Some (users um !! str uid) \/ max_users um <= get_user_count um ->
  add_user um uid uname first now w = (false, um).
Proof.
  intros H. unfold add_user, can_accept_new_user.
  case_bool_decide as Hin; [reflexivity|].
  destruct H as [H|H]; [contradiction|].
  destruct (Z.ltb_spec (get_user_count um) (max_users um)); [lia|].
  reflexivity.
Qed.

(** Otherwise it stores one new record under the user's id. *)
Lemma add_user_accepted um uid uname first now w :
  users um !! str uid = None ->
  get_user_count um < max_users um ->
  exists um' record,
    add_user um uid uname first now w = (true, um')
    /\ users um' = <[str uid := record]> (users um)
    /\ user_id record = str uid
    /\ total_tokens record = 0
    /\ max_users um' = max_users um
    /\ get_user_count um' = get_user_count um + 1.
Proof.
  intros Hnew Hroom. unfold add_user, can_accept_new_user.
  case_bool_decide as Hin; [rewrite Hnew in Hin; destruct Hin; discriminate|].
  destruct (Z.ltb_spec (get_user_count um) (max_users um)); [|lia].
  simpl. eexists _, _. split; [reflexivity|].
  rewrite save_users_users, save_users_max_users. simpl.
  repeat split.
  unfold get_user_count. rewrite save_users_users. simpl.
  rewrite map_size_insert_None by exact Hnew. lia.
Qed.

Lemma add_user_within_limit um uid uname first now w :
  within_limit um ->
  within_limit (snd (add_user um uid uname first now w))
  /\ max_users (snd (add_user um uid uname first now w)) = max_users um.
Proof.
  intros Hlim.
  destruct (users um !! str uid) as [u|] eqn:Hu.
  - rewrite add_user_refused by eauto. split; [exact Hlim|reflexivity].
  - destruct (Z.lt_ge_cases (get_user_count um) (max_users um)) as [Hlt|Hge].
    + destruct (add_user_accepted um uid uname first now w Hu Hlt)
        as (um' & record & -> & _ & _ & _ & Hmax & Hcount).
      simpl. unfold within_limit. rewrite Hmax, Hcount. split; [lia|reflexivity].
    + rewrite add_user_refused by eauto. split; [exact Hlim|reflexivity].
Qed.

(** Rewriting the record of a stored user keeps the number of users. *)
Lemma rewrite_record_within_limit um key u u' w :
  users um !! key = Some u ->
  within_limit um ->
  within_limit (save_users w (set_users (<[key := u']> (users um)) um))
  /\ max_users (save_users w (set_users (<[key := u']> (users um)) um))
     = max_users um.
Proof.
  intros Hu Hlim. unfold within_limit, get_user_count.
  rewrite save_users_users, save_users_max_users. simpl.
  rewrite map_size_insert_Some by eauto. split; [exact Hlim|reflexivity].
Qed.

Lemma exec_within_limit um c :
  within_limit um ->
  within_limit (exec um c) /\ max_users (exec um c) = max_users um.
Proof.
  intros Hlim. destruct c; simpl; try (split; [exact Hlim|reflexivity]).
  - apply add_user_within_limit, Hlim.
  - unfold update_tokens. destruct (users um !! str uid) eqn:Hu.
    + eapply rewrite_record_within_limit; eauto.
    + split; [exact Hlim|reflexivity].
  - unfold update_last_activity. destruct (users um !! str uid) eqn:Hu.
    + eapply rewrite_record_within_limit; eauto.
    + split; [exact Hlim|reflexivity].
  - unfold within_limit, get_user_count.
    rewrite save_users_users, save_users_max_users.
    split; [exact Hlim|reflexivity].
Qed.

Lemma exec_all_within_limit cs : forall um,
  within_limit um ->
  within_limit (exec_all um cs)
  /\ max_users (exec_all um cs) = max_users um.
Proof.
  induction cs as [|c cs IH]; intros um Hlim; simpl.
  - split; [exact Hlim|reflexivity].
  - destruct (exec_within_limit um c Hlim) as [Hlim' Hmax].
    destruct (IH (exec um c) Hlim') as [H1 H2].
    split; [exact H1|]. unfold exec_all in *. simpl. congruence.
Qed.

(** C10: from a manager whose users are within [max_users], every sequence
    of calls leaves them within it.  [add_user] returns [False] and changes
    nothing when the user is there already or the count has reached
    [max_users]; otherwise it returns [True] and adds one record, under the
    id of the user. *)
Theorem user_count_within_limit (um : t) :
  within_limit um ->
  (forall calls,
     within_limit (exec_all um calls)
     /\ max_users (exec_all um calls) = max_users um)
  /\ (forall uid uname first now w,
        is_Some (users um !! str uid) \/ max_users um <= get_user_count um ->
        add_user um uid uname first now w = (false, um))
  /\ (forall uid uname first now w,
        users um !! str uid = None ->
        get_user_count um < max_users um ->
        exists um' record,
          add_user um uid uname first now w = (true, um')
          /\ users um' = <[str uid := record]> (users um)
          /\ get_user_count um' = get_user_count um + 1
          /\ within_limit um').
Proof.
  intros Hlim. split; [|split].
  - intros calls. apply exec_all_within_limit, Hlim.
  - intros. now apply add_user_refused.
  - intros uid uname first now w Hnew Hroom.
    destruct (add_user_accepted um uid uname first now w Hnew Hroom)
      as (um' & record & Hadd & Husers & _ & _ & Hmax & Hcount).
    exists um', record. repeat split; try assumption.
    unfold within_limit. rewrite Hmax, Hcount. lia.
Qed.

Lemma user_count_within_limit_witness :
  within_limit (init "1" 1 Missing)
  /\ within_limit
       (exec_all (init "1" 1 Missing)
          [AddUser 7 None (Some "Ann") "t1" Written;
           AddUser 8 None None "t2" Written;
           UpdateTokens 7 120 OpenFailed]).
Proof.
  assert (H : within_limit (init "1" 1 Missing))
    by (vm_compute; discriminate).
  split; [exact H|].
  apply (proj1 (user_count_within_limit (init "1" 1 Missing) H)).
Defined.

(** Reading the data file back keeps the users within the limit when the
    file holds no more users than that, as every file written by
    [save_users] from a manager within its limit does. *)
Lemma load_users_within_limit um saved :
  data_file um = Holds saved ->
  Z.of_nat (size saved) <= max_users um ->
  within_limit (load_users um).
Proof.
  intros Hf Hsize. unfold load_users, within_limit, get_user_count.
  rewrite Hf. simpl. exact Hsize.
Qed.

Lemma save_users_written um :
  data_file (save_users Written um) = Holds (users um).
Proof. reflexivity. Qed.

End UserStore.

(** ** The coalescer: further properties *)

Module CoalescerFacts.
Import Text MessageHandler Spec Notions TextFacts Coalescer.

(** [rstrip] only drops characters of its set from the end. *)
Lemma rstrip_suffix p s :
  exists dropped, s = rstrip p s ++ dropped /\ forallb p dropped = true.
Proof.
  induction s as [|c s IH] using rev_ind.
  - exists []. split; reflexivity.
  - rewrite rstrip_snoc. destruct (p c) eqn:Hc.
    + destruct IH as (d & Hs & Hd). exists (d ++ [c]). split.
      * rewrite app_assoc, <- Hs. reflexivity.
      * rewrite forallb_app, Hd. simpl. now rewrite Hc.
    + exists []. split; [now rewrite app_nil_r|reflexivity].
Qed.

Lemma len_rstrip p s : len (rstrip p s) <= len s.
Proof.
  destruct (rstrip_suffix p s) as (d & Hs & _).
  rewrite Hs at 2. rewrite len_app. pose proof (len_nonneg d). lia.
Qed.

(** The three outcomes of one turn of the loop. *)
Lemma combine_step_cases combined_text prev_msg curr_msg :
  combine_step combined_text prev_msg curr_msg
  = rstrip (is_char "-") combined_text ++ curr_msg
  \/ combine_step combined_text prev_msg curr_msg
     = combined_text ++ [ch " "] ++ curr_msg
  \/ combine_step combined_text prev_msg curr_msg
     = combined_text ++ [NL; NL] ++ curr_msg.
Proof.
  unfold combine_step.
  destruct (negb _ || _); [destruct (endswith _ _)|]; auto.
Qed.

(** [combine_messages] on a first fragment and those after it. *)
Lemma combine_messages_walk {Id : Type} (first : list N) (id : Id)
    (later : list (list N * Id)) :
  combine_messages ((first, id) :: later)
  = (coalesce_from first first (map fst later), id :: map snd later).
Proof.
  destruct later as [|[second id2] later]; [reflexivity|].
  unfold combine_messages. f_equal.
  set (texts := map fst ((first, id) :: (second, id2) :: later)).
  replace (length texts - 1)%nat with (S (length later))
    by (unfold texts; simpl; rewrite length_map; lia).
  rewrite (loop_pairs texts (S (length later)) 0)
    by (unfold texts; simpl; rewrite length_map; lia).
  unfold texts. simpl. rewrite <- (length_map fst later), firstn_all.
  reflexivity.
Qed.

Lemma join_cases accumulated previous current :
  join accumulated (decide_join previous current) current
  = rstrip (is_char "-") accumulated ++ current
  \/ join accumulated (decide_join previous current) current
     = accumulated ++ [ch " "] ++ current
  \/ join accumulated (decide_join previous current) current
     = accumulated ++ [NL; NL] ++ current.
Proof. rewrite <- combine_step_spec. apply combine_step_cases. Qed.



Lemma content_app a b : content (a ++ b) = content a ++ content b.
Proof. apply List.filter_app. Qed.

Lemma content_rstrip_hyphens s : content (rstrip (is_char "-") s) = content s.
Proof.
  destruct (rstrip_suffix (is_char "-") s) as (d & Hs & Hd).
  rewrite Hs at 2. rewrite content_app.
  assert (content d = []) as ->; [|now rewrite app_nil_r].
  clear Hs. induction d as [|c d IH]; [reflexivity|].
  simpl in Hd. apply andb_prop in Hd as [Hc Hd].
  unfold content in *. simpl. unfold is_joint. rewrite Hc. simpl.
  apply IH, Hd.
Qed.

Lemma content_join accumulated previous current :
  content (join accumulated (decide_join previous current) current)
  = content accumulated ++ content current.
Proof.
  destruct (join_cases accumulated previous current) as [-> | [-> | ->]];
    rewrite !content_app, ?content_rstrip_hyphens; reflexivity.
Qed.

Lemma content_coalesce_from later : forall accumulated previous,
  content (coalesce_from accumulated previous later)
  = content accumulated ++ concat (map content later).
Proof.
  induction later as [|current later IH]; intros accumulated previous; simpl.
  - now rewrite app_nil_r.
  - rewrite IH, content_join, <- app_assoc. reflexivity.
Qed.

(** X1: apart from hyphens, spaces and newlines, the combined text is made of
    the characters of the fragments, all of them and in order. *)
Theorem combine_messages_content {Id : Type} (messages : list (list N * Id)) :
  content (fst (combine_messages messages))
  = concat (map (fun m => content (fst m)) messages).
Proof.
  destruct messages as [|[first id] later]; [reflexivity|].
  rewrite combine_messages_walk. cbn [fst map concat].
  rewrite content_coalesce_from, map_map. reflexivity.
Qed.

Lemma len_join accumulated previous current :
  len (join accumulated (decide_join previous current) current)
  <= len accumulated + len current + 2.
Proof.
  pose proof (len_rstrip (is_char "-") accumulated).
  destruct (join_cases accumulated previous current) as [-> | [-> | ->]];
    rewrite !len_app; unfold len in *; simpl; lia.
Qed.


Lemma len_coalesce_from later : forall accumulated previous,
  len (coalesce_from accumulated previous later)
  <= len accumulated + foldr (fun t n => len t + n) 0 later
     + 2 * Z.of_nat (length later).
Proof.
  induction later as [|current later IH]; intros accumulated previous; simpl.
  - lia.
  - specialize (IH (join accumulated (decide_join previous current) current)
                  current).
    pose proof (len_join accumulated previous current). lia.
Qed.

(** X2: the combined text is no longer than the fragments together plus two
    characters for each joint. *)
Theorem combine_messages_length {Id : Type} (messages : list (list N * Id)) :
  len (fst (combine_messages messages))
  <= total_len messages + 2 * Z.of_nat (length messages - 1).
Proof.
  destruct messages as [|[first id] later]; [reflexivity|].
  rewrite combine_messages_walk. cbn [fst]. unfold total_len.
  pose proof (len_coalesce_from (map fst later) first first) as H.
  rewrite length_map in H. cbn [foldr fst length].
  replace (S (length later) - 1)%nat with (length later) by lia.
  assert (foldr (fun t n => len t + n) 0 (map fst later)
          = foldr (fun (m : list N * Id) n => len (fst m) + n) 0 later) as <-.
  { clear. induction later as [|m later IH]; simpl; congruence. }
  lia.
Qed.

Lemma join_suffix accumulated previous current :
  exists before,
    join accumulated (decide_join previous current) current
    = before ++ current.
Proof.
  destruct (join_cases accumulated previous current) as [-> | [-> | ->]];
    [eexists; reflexivity| |];
    eexists; rewrite app_assoc; reflexivity.
Qed.

Lemma coalesce_from_suffix later final : forall accumulated previous,
  exists before,
    coalesce_from accumulated previous (later ++ [final]) = before ++ final.
Proof.
  induction later as [|current later IH]; intros accumulated previous.
  - apply join_suffix.
  - apply IH.
Qed.

(** X3: the combined text ends with the last fragment, whole. *)
Theorem combine_messages_ends_with_last {Id : Type}
    (messages : list (list N * Id)) (final : list N) :
  last (map fst messages) = Some final ->
  exists before, fst (combine_messages messages) = before ++ final.
Proof.
  intros Hlast. destruct messages as [|[first id] later]; [discriminate|].
  rewrite combine_messages_walk. cbn [fst map] in *.
  destruct (map fst later) as [|second texts] eqn:E.
  - injection Hlast as <-. exists []. reflexivity.
  - destruct (exists_last (l := second :: texts)) as (init & t & Ht);
      [discriminate|].
    rewrite Ht in *. rewrite app_comm_cons, last_snoc in Hlast.
    injection Hlast as <-. apply coalesce_from_suffix.
Qed.

Lemma combine_messages_ends_with_last_witness :
  exists before,
    fst (combine_messages [(py "Done.", 1); (py "Next topic.", 2)])
    = before ++ py "Next topic.".
Proof.
  apply (combine_messages_ends_with_last
           [(py "Done.", 1); (py "Next topic.", 2)] (py "Next topic.")).
  reflexivity.
Defined.

End CoalescerFacts.

(** ** The splitter: further properties *)

Module SplitterFacts.
Import Text MessageHandler Spec Notions TextFacts Splitter.

(** *** The result is empty only for the empty text under a negative limit *)

Lemma scan_current_part text_i st :
  text_i <> [] -> current_part (fst (scan text_i st)) <> [].
Proof.
  destruct text_i as [|c rest]; [congruence|]. intros _.
  assert (Hadd : forall s st', s <> [] -> current_part st' ++ s <> []).
  { intros s st' Hs H. apply app_eq_nil in H as [_ H]. contradiction. }
  unfold scan.
  destruct (is_char "<" c); [|apply Hadd; discriminate].
  destruct (open_tag_match (c :: rest)) as [[tag_name n]|] eqn:Eo.
  - apply open_tag_match_pos in Eo.
    destruct (negb _); cbn [fst add_text set_open_tags current_part];
      apply Hadd; destruct n; [lia|discriminate|lia|discriminate].
  - destruct (close_tag_match (c :: rest)) as [[tag_name n]|] eqn:Ec;
      [|apply Hadd; discriminate].
    apply close_tag_match_text in Ec as (_ & _ & Hpos & _).
    destruct (top_is _ _); cbn [fst add_text set_open_tags current_part];
      apply Hadd; destruct n; [lia|discriminate|lia|discriminate].
Qed.

Lemma loop_current_part fuel : forall max_length text_i st st',
  text_i <> [] ->
  loop fuel max_length text_i st = Some st' -> current_part st' <> [].
Proof.
  induction fuel as [|fuel IH]; intros max_length text_i st st' Hne Hloop.
  - destruct text_i; [congruence|discriminate].
  - destruct text_i as [|c rest]; [congruence|].
    cbn [loop] in Hloop.
    pose proof (scan_current_part (c :: rest) (flush max_length st) Hne) as Hs.
    destruct (scan (c :: rest) (flush max_length st)) as [st1 text1].
    destruct text1 as [|c1 rest1].
    + destruct fuel; simpl in Hloop; injection Hloop as <-; exact Hs.
    + eapply IH; [|exact Hloop]. discriminate.
Qed.

(** X6: [split_response] returns no chunk at all only when the text is empty
    and the limit negative; any text with a character gives a chunk. *)
Theorem split_response_empty_result MAX_MESSAGE_LENGTH text limit :
  split_response MAX_MESSAGE_LENGTH text limit = Some []
  <-> text = [] /\ default MAX_MESSAGE_LENGTH limit < 0.
Proof.
  unfold split_response.
  destruct (Z.leb_spec (len text) (default MAX_MESSAGE_LENGTH limit))
    as [Hle|Hgt].
  - split; [discriminate|]. intros [-> H]. unfold len in Hle. simpl in Hle. lia.
  - destruct text as [|c rest].
    + simpl. split; [|reflexivity]. intros _. split; [reflexivity|].
      unfold len in Hgt. simpl in Hgt. lia.
    + split; [|intros [? _]; discriminate].
      destruct (loop _ _ _ _) as [st|] eqn:Hloop; [|discriminate].
      apply loop_current_part in Hloop; [|discriminate].
      destruct (current_part st); [congruence|].
      intros [= H]. apply app_eq_nil in H as [_ H]. discriminate.
Qed.

(** *** Chunks are not empty *)

Lemma break_after_positive buffer max_length :
  buffer <> [] -> 1 <= break_after buffer max_length.
Proof.
  intros Hne. unfold break_after, not_too_early.
  assert (1 <= len buffer) by (destruct buffer; [congruence|unfold len; simpl; lia]).
  repeat case_match; simplify_eq; lia.
Qed.

Lemma flush_parts_nonempty max_length st :
  1 <= max_length ->
  Forall (fun part => part <> []) (parts st) ->
  Forall (fun part => part <> []) (parts (flush max_length st)).
Proof.
  intros Hmax Hparts.
  destruct (Z.lt_ge_cases (len (current_part st)) max_length) as [Hlt|Hge].
  - unfold flush.
    destruct (Z.geb_spec (len (current_part st)) max_length); [lia|].
    exact Hparts.
  - rewrite (flush_full _ _ Hge). cbn [parts].
    apply Forall_app_2; [exact Hparts|]. constructor; [|constructor].
    assert (Hne : current_part st <> []).
    { intros E. rewrite E in Hge. unfold len in Hge. simpl in Hge. lia. }
    pose proof (break_after_positive _ max_length Hne) as Hb.
    destruct (current_part st) as [|c buffer]; [congruence|].
    destruct (Z.to_nat (break_after (c :: buffer) max_length)) eqn:E; [lia|].
    discriminate.
Qed.

Lemma scan_parts text_i st : parts (fst (scan text_i st)) = parts st.
Proof.
  destruct text_i as [|c rest]; [reflexivity|]. unfold scan.
  destruct (is_char "<" c); [|reflexivity].
  destruct (open_tag_match _) as [[? ?]|].
  - destruct (negb _); reflexivity.
  - destruct (close_tag_match _) as [[? ?]|]; [|reflexivity].
    destruct (top_is _ _); reflexivity.
Qed.

Lemma loop_parts_nonempty fuel : forall max_length text_i st st',
  1 <= max_length ->
  Forall (fun part => part <> []) (parts st) ->
  loop fuel max_length text_i st = Some st' ->
  Forall (fun part => part <> []) (parts st').
Proof.
  induction fuel as [|fuel IH]; intros max_length text_i st st' Hmax Hp Hloop.
  - destruct text_i; [|discriminate]. injection Hloop as <-. exact Hp.
  - destruct text_i as [|c rest]; [injection Hloop as <-; exact Hp|].
    cbn [loop] in Hloop.
    pose proof (scan_parts (c :: rest) (flush max_length st)) as Hs.
    destruct (scan (c :: rest) (flush max_length st)) as [st1 text1].
    eapply IH; [exact Hmax| |exact Hloop].
    simpl in Hs. rewrite Hs. apply flush_parts_nonempty; assumption.
Qed.

(** X7: under a limit of one or more, no chunk of a text that is not empty is
    the empty string. *)
Theorem split_response_chunks_nonempty MAX_MESSAGE_LENGTH text limit chunks :
  text <> [] ->
  1 <= default MAX_MESSAGE_LENGTH limit ->
  split_response MAX_MESSAGE_LENGTH text limit = Some chunks ->
  Forall (fun chunk => chunk <> []) chunks.
Proof.
  intros Hne Hmax. unfold split_response.
  destruct (len text <=? _).
  - intros [= <-]. constructor; [exact Hne|constructor].
  - destruct (loop _ _ _ _) as [st|] eqn:Hloop; [|discriminate].
    apply loop_parts_nonempty in Hloop; [|exact Hmax|constructor].
    intros [= <-]. destruct (current_part st) eqn:E; [exact Hloop|].
    apply Forall_app_2; [exact Hloop|]. constructor; [discriminate|constructor].
Qed.

Lemma split_response_chunks_nonempty_witness :
  Forall (fun chunk => chunk <> [])
    [py "Hi.</b>"; py "<b> </b>"; py "<b><b>abc</b>"; py "<b>def</b>"].
Proof.
  apply (split_response_chunks_nonempty 4000 (py "Hi. <b>abcdef</b>")
           (Some 8)).
  - discriminate.
  - simpl. lia.
  - vm_compute. reflexivity.
Defined.

(** *** Text without tags *)


Lemma flush_cuts max_length seen st :
  1 <= max_length -> cuts max_length seen st ->
  cuts max_length seen (flush max_length st)
  /\ len (current_part (flush max_length st)) < max_length.
Proof.
  intros Hmax (Htags & Hcat & Hparts & Hbuf).
  destruct (Z.lt_ge_cases (len (current_part st)) max_length) as [Hlt|Hge].
  - unfold flush.
    destruct (Z.geb_spec (len (current_part st)) max_length); [lia|].
    repeat split; assumption.
  - rewrite (flush_full _ _ Hge). rewrite Htags.
    change (closing_tags []) with (@nil N).
    change (opening_tags []) with (@nil N).
    rewrite app_nil_r. cbn [parts current_part open_tags app].
    assert (Hne : current_part st <> []).
    { intros E. rewrite E in Hge. unfold len in Hge. simpl in Hge. lia. }
    pose proof (break_after_positive _ max_length Hne) as Hb.
    set (b := Z.to_nat (break_after (current_part st) max_length)) in *.
    assert (Htake : len (take b (current_part st)) <= len (current_part st)).
    { unfold len. rewrite length_take. lia. }
    assert (Hdrop : len (drop b (current_part st)) < len (current_part st)).
    { unfold len. rewrite length_drop.
      assert (0 < length (current_part st))%nat
        by (destruct (current_part st); [congruence|simpl; lia]).
      lia. }
    repeat split; cbn [parts current_part open_tags].
    + rewrite concat_app. simpl. rewrite app_nil_r, <- app_assoc.
      rewrite take_drop. exact Hcat.
    + apply Forall_app_2; [exact Hparts|]. constructor; [lia|constructor].
    + lia.
    + lia.
Qed.

Lemma scan_literal c rest st :
  is_char "<" c = false -> scan (c :: rest) st = (add_text [c] st, rest).
Proof. intros H. unfold scan. rewrite H. reflexivity. Qed.

Lemma loop_cuts max_length text_i : forall fuel seen st st',
  1 <= max_length ->
  Forall (fun c => is_char "<" c = false) text_i ->
  cuts max_length seen st ->
  loop fuel max_length text_i st = Some st' ->
  cuts max_length (seen ++ text_i) st'.
Proof.
  induction text_i as [|c rest IH]; intros fuel seen st st' Hmax Hplain Hst Hl.
  - destruct fuel; simpl in Hl; injection Hl as <-; now rewrite app_nil_r.
  - apply Forall_cons in Hplain as [Hc Hrest].
    destruct fuel as [|fuel]; [discriminate|].
    cbn [loop] in Hl. rewrite (scan_literal _ _ _ Hc) in Hl.
    replace (seen ++ c :: rest) with ((seen ++ [c]) ++ rest)
      by now rewrite <- app_assoc.
    eapply IH; [exact Hmax|exact Hrest| |exact Hl].
    destruct (flush_cuts max_length seen st Hmax Hst)
      as [(Htags & Hcat & Hparts & _) Hlt].
    repeat split; cbn [add_text parts current_part open_tags].
    + exact Htags.
    + rewrite app_assoc, Hcat. reflexivity.
    + exact Hparts.
    + rewrite len_app. unfold len in *. simpl. lia.
Qed.

(** X8: a text without any [<], under a limit of one or more, is cut into
    chunks that put together are the text, none longer than the limit. *)
Theorem split_response_plain_text MAX_MESSAGE_LENGTH text limit :
  Forall (fun c => is_char "<" c = false) text ->
  1 <= default MAX_MESSAGE_LENGTH limit ->
  exists chunks,
    split_response MAX_MESSAGE_LENGTH text limit = Some chunks
    /\ concat chunks = text
    /\ Forall (fun chunk => len chunk <= default MAX_MESSAGE_LENGTH limit)
         chunks.
Proof.
  intros Hplain Hmax.
  destruct (split_response_total MAX_MESSAGE_LENGTH text limit)
    as [chunks Hsplit].
  exists chunks. split; [exact Hsplit|].
  unfold split_response in Hsplit.
  destruct (Z.leb_spec (len text) (default MAX_MESSAGE_LENGTH limit)).
  - injection Hsplit as <-. simpl. rewrite app_nil_r.
    split; [reflexivity|]. constructor; [assumption|constructor].
  - destruct (loop _ _ _ _) as [st|] eqn:Hloop; [|discriminate].
    assert (Hinit : cuts (default MAX_MESSAGE_LENGTH limit) []
                      {| parts := []; current_part := []; open_tags := [] |}).
    { repeat split; [constructor|unfold len; simpl; lia]. }
    destruct (loop_cuts _ _ _ _ _ _ Hmax Hplain Hinit Hloop)
      as (_ & Hcat & Hparts & Hbuf).
    injection Hsplit as <-. simpl in Hcat.
    destruct (current_part st) eqn:E.
    + rewrite app_nil_r in Hcat. split; assumption.
    + split.
      * rewrite concat_app. simpl. rewrite app_nil_r. exact Hcat.
      * apply Forall_app_2; [exact Hparts|]. constructor; [exact Hbuf|constructor].
Qed.

Lemma split_response_plain_text_witness :
  exists chunks,
    split_response 4000 (py "One. Two three four") (Some 8) = Some chunks
    /\ concat chunks = py "One. Two three four"
    /\ Forall (fun chunk => len chunk <= 8) chunks.
Proof.
  apply (split_response_plain_text 4000 (py "One. Two three four") (Some 8)).
  - repeat constructor.
  - simpl. lia.
Defined.

(** *** The plain text of [bot.py] *)

Lemma plain_text_from_skip a s :
  Bot.plain_text_from (length a) (a ++ s) = Bot.plain_text_from 0 s.
Proof. induction a as [|x a IH]; [reflexivity|exact IH]. Qed.

Lemma lazy_until_gt_name name s :
  forallb is_alnum name = true ->
  Bot.lazy_until_gt (name ++ ch ">" :: s) = Some (S (length name)).
Proof.
  intros H. induction name as [|c name IH]; simpl.
  - rewrite ?is_char_ch. reflexivity.
  - simpl in H. apply andb_prop in H as [Hc H]. rewrite (IH H).
    assert (is_markup_char c = true) as Hm
      by (unfold is_markup_char; now rewrite Hc).
    destruct (is_char ">" c) eqn:E1.
    { apply N.eqb_eq in E1. subst c. discriminate. }
    destruct (is_char "<" c) eqn:E2.
    { apply N.eqb_eq in E2. subst c. discriminate. }
    reflexivity.
Qed.

Lemma tag_match_literal c s : is_char "<" c = false -> Bot.tag_match (c :: s) = None.
Proof. intros H. unfold Bot.tag_match. destruct s; rewrite ?H; reflexivity. Qed.

Lemma tag_match_opening name s :
  tag_name_ok name = true ->
  Bot.tag_match (render_piece (Opening name) ++ s)
  = Some (length (render_piece (Opening name))).
Proof.
  destruct name as [|d name]; [discriminate|]. intros H.
  simpl in H. apply andb_prop in H as [Hd Hn].
  assert (Hlt : is_char "<" d = false).
  { destruct (is_char "<" d) eqn:E; [|reflexivity].
    apply N.eqb_eq in E. subst d. discriminate. }
  replace (render_piece (Opening (d :: name)) ++ s)
    with (ch "<" :: d :: name ++ ch ">" :: s)
    by (simpl; rewrite <- app_assoc; reflexivity).
  unfold Bot.tag_match.
  rewrite is_char_ch, Hlt, (lazy_until_gt_name _ _ Hn).
  simpl. rewrite length_app. simpl. f_equal. lia.
Qed.

Lemma tag_match_closing name s :
  tag_name_ok name = true ->
  Bot.tag_match (render_piece (Closing name) ++ s)
  = Some (length (render_piece (Closing name))).
Proof.
  intros H.
  assert (Hn : forallb is_alnum name = true).
  { destruct name as [|d name]; [discriminate|]. simpl in *.
    apply andb_prop in H as [Hd Hn]. unfold is_alnum at 1.
    now rewrite Hd, Hn. }
  replace (render_piece (Closing name) ++ s)
    with (ch "<" :: ch "/" :: name ++ ch ">" :: s)
    by (simpl; rewrite <- app_assoc; reflexivity).
  unfold Bot.tag_match.
  rewrite is_char_ch. change (is_char "<" (ch "/")) with false.
  rewrite (lazy_until_gt_name _ _ Hn).
  simpl. rewrite length_app. simpl. f_equal. lia.
Qed.

Lemma plain_text_tag t s :
  Bot.tag_match (t ++ s) = Some (length t) ->
  Bot.plain_text (t ++ s) = Bot.plain_text s.
Proof.
  intros H. destruct t as [|c t].
  - destruct s as [|? [|? ?]]; simpl in H; try discriminate.
    destruct (_ && _); [|discriminate].
    destruct (Bot.lazy_until_gt _); discriminate.
  - unfold Bot.plain_text. cbn [app Bot.plain_text_from].
    cbn [app] in H. rewrite H. cbn [length].
    rewrite Nat.sub_succ, Nat.sub_0_r. apply plain_text_from_skip.
Qed.

Lemma plain_text_piece p s :
  piece_ok p = true ->
  Bot.plain_text (render_piece p ++ s)
  = match literal p with Some c => [c] | None => [] end ++ Bot.plain_text s.
Proof.
  intros H. destruct p as [c|name|name]; simpl in H.
  - apply negb_true_iff in H. unfold Bot.plain_text.
    cbn [render_piece app Bot.plain_text_from literal].
    rewrite (tag_match_literal _ _ H). reflexivity.
  - apply plain_text_tag, tag_match_opening, H.
  - apply plain_text_tag, tag_match_closing, H.
Qed.

Lemma plain_text_render ps :
  pieces_ok ps -> Bot.plain_text (render ps) = literals ps.
Proof.
  induction 1 as [|p ps Hp _ IH]; [reflexivity|].
  rewrite render_cons, (plain_text_piece _ _ Hp), IH.
  unfold literals. csimpl. destruct (literal p); reflexivity.
Qed.

(** What [split_response] returns on markup without attributes is markup
    without attributes, with the same literal characters. *)
Lemma split_response_pieces MAX_MESSAGE_LENGTH ps limit :
  pieces_ok ps ->
  exists chunks qs,
    split_response MAX_MESSAGE_LENGTH (render ps) limit = Some chunks
    /\ concat chunks = render qs
    /\ pieces_ok qs
    /\ literals qs = literals ps.
Proof.
  intros Hok.
  destruct (split_response_total MAX_MESSAGE_LENGTH (render ps) limit)
    as [chunks Hsplit].
  exists chunks. unfold split_response in Hsplit.
  destruct (len (render ps) <=? default MAX_MESSAGE_LENGTH limit) eqn:Hle.
  - exists ps. split; [unfold split_response; now rewrite Hle|].
    injection Hsplit as <-. simpl. rewrite app_nil_r. auto.
  - destruct (loop _ _ _ _) as [st|] eqn:Hloop; [|discriminate].
    assert (Hinit : reads [] {| parts := []; current_part := [];
                                open_tags := [] |}).
    { exists [], []. repeat split; constructor. }
    destruct (loop_reads _ _ _ _ _ _ Hok Hinit Hloop)
      as (qs & cur & Hqs & Hcur & Hparts & Hbuf & Hlit & _).
    exists (qs ++ cur).
    split; [unfold split_response; now rewrite Hle, Hloop|].
    split; [|split].
    + rewrite render_app, <- Hparts, <- Hbuf. injection Hsplit as <-.
      destruct (current_part st); [now rewrite app_nil_r|].
      rewrite concat_app. simpl. now rewrite app_nil_r.
    + apply Forall_app_2; assumption.
    + rewrite literals_app. exact Hlit.
Qed.

(** X5: on markup whose tags carry no attribute, the pattern [bot.py] strips
    tags with leaves the literal characters, as the splitter reads them; and
    the chunks of [split_response], put together and stripped that way, give
    the text stripped that way. *)
Theorem split_response_plain_text_of_tags MAX_MESSAGE_LENGTH ps limit :
  pieces_ok ps ->
  Bot.plain_text (render ps) = visible_text (render ps)
  /\ exists chunks,
       split_response MAX_MESSAGE_LENGTH (render ps) limit = Some chunks
       /\ Bot.plain_text (concat chunks) = Bot.plain_text (render ps).
Proof.
  intros Hok. split.
  - now rewrite plain_text_render, visible_text_render.
  - destruct (split_response_pieces MAX_MESSAGE_LENGTH ps limit Hok)
      as (chunks & qs & Hsplit & Hcat & Hqs & Hlit).
    exists chunks. split; [exact Hsplit|].
    now rewrite Hcat, !plain_text_render, Hlit.
Qed.

Lemma plain_text_from_length s : forall skip,
  (length (Bot.plain_text_from skip s) <= length s)%nat.
Proof.
  induction s as [|c r IH]; intros skip;
    cbn [Bot.plain_text_from length]; [lia|].
  destruct skip as [|k]; [|specialize (IH k); lia].
  destruct (Bot.tag_match (c :: r)) as [n|].
  - specialize (IH (n - 1)%nat). lia.
  - specialize (IH 0%nat). cbn [length]. lia.
Qed.

(** X9: stripping the tags as [bot.py] does never makes a text longer, and
    leaves a text without [<] as it is. *)
Theorem plain_text_no_longer s :
  len (Bot.plain_text s) <= len s
  /\ (Forall (fun c => is_char "<" c = false) s -> Bot.plain_text s = s).
Proof.
  split.
  - unfold len, Bot.plain_text. pose proof (plain_text_from_length s 0). lia.
  - unfold Bot.plain_text. induction 1 as [|c r Hc _ IH]; [reflexivity|].
    cbn [Bot.plain_text_from]. rewrite (tag_match_literal _ _ Hc), IH.
    reflexivity.
Qed.

Lemma split_response_plain_text_of_tags_witness :
  Bot.plain_text
    (render [Opening (py "b"); Lit (ch "H"); Lit (ch "i"); Lit (ch ".");
             Lit (ch " "); Lit (ch "a"); Lit (ch "b"); Lit (ch "c");
             Closing (py "b")])
  = visible_text
      (render [Opening (py "b"); Lit (ch "H"); Lit (ch "i"); Lit (ch ".");
               Lit (ch " "); Lit (ch "a"); Lit (ch "b"); Lit (ch "c");
               Closing (py "b")]).
Proof.
  apply (split_response_plain_text_of_tags 4000
           [Opening (py "b"); Lit (ch "H"); Lit (ch "i"); Lit (ch ".");
            Lit (ch " "); Lit (ch "a"); Lit (ch "b"); Lit (ch "c");
            Closing (py "b")] (Some 6)).
  repeat constructor.
Defined.

Lemma split_response_visible_text_plain_tags_witness :
  exists chunks,
    split_response 4000
      (render [Opening (py "b"); Lit (ch "H"); Lit (ch "i"); Lit (ch ".");
               Lit (ch " "); Lit (ch "a"); Lit (ch "b"); Lit (ch "c");
               Closing (py "b")]) (Some 6) = Some chunks
    /\ visible_text (concat chunks)
       = visible_text
           (render [Opening (py "b"); Lit (ch "H"); Lit (ch "i");
                    Lit (ch "."); Lit (ch " "); Lit (ch "a"); Lit (ch "b");
                    Lit (ch "c"); Closing (py "b")]).
Proof.
  apply (split_response_visible_text_plain_tags 4000
           [Opening (py "b"); Lit (ch "H"); Lit (ch "i"); Lit (ch ".");
            Lit (ch " "); Lit (ch "a"); Lit (ch "b"); Lit (ch "c");
            Closing (py "b")] (Some 6)).
  repeat constructor.
Defined.
End SplitterFacts.

(** ** The markdown conversion *)

Module MarkdownFacts.
Import Text Markdown Notions.

Lemma lazy_group_never closing s : forall before,
  (forall b r, closing b r = None) -> lazy_group closing before s = None.
Proof.
  induction s as [|c r IH]; intros before Hnever; simpl; rewrite Hnever.
  - reflexivity.
  - destruct (c =? NL)%N; [reflexivity|]. now rewrite IH.
Qed.

Lemma sub_from_no_match m s : forall before,
  (forall b r, m b r = None) -> sub_from m 0 before s = s.
Proof.
  induction s as [|c r IH]; intros before Hm; simpl; [reflexivity|].
  rewrite Hm, IH by exact Hm. reflexivity.
Qed.

Lemma italic_asterisk_never before s : italic_asterisk before s = None.
Proof.
  unfold italic_asterisk. destruct s as [|c r]; [reflexivity|].
  destruct (_ && _); [|reflexivity].
  rewrite lazy_group_never; [reflexivity|].
  intros b [|d r']; [reflexivity|]. simpl.
  destruct (is_char "*" d); reflexivity.
Qed.

(** X10: the substitution for [*text*] changes no text: its pattern asks for
    an asterisk where its lookahead wants none.  Both conversions are the
    other substitutions alone. *)
Theorem single_asterisk_unchanged (text : list N) :
  sub italic_asterisk text = text
  /\ convert_markdown_to_html text
     = sub (fixed [NL; NL] (py "<br><br>"))
         (sub (fixed [ch " "; ch " "; NL] (py "<br>" ++ [NL]))
            (sub italic_underscore (sub bold text)))
  /\ convert_markdown_to_html_bot (Some text)
     = sub br_tag
         (sub (fixed [NL; NL] [NL])
            (sub (fixed [ch " "; ch " "; NL] [NL])
               (sub italic_underscore (sub bold text)))).
Proof.
  assert (H : forall s, sub italic_asterisk s = s)
    by (intros s; apply sub_from_no_match, italic_asterisk_never).
  split; [apply H|]. unfold convert_markdown_to_html,
    convert_markdown_to_html_bot. rewrite H. split; reflexivity.
Qed.

(** *** Texts the patterns find nothing in *)

Section Untouched.

Variable P : N -> bool.
Variable m : option N -> list N -> option (list N * nat).
Hypothesis m_needs :
  forall before s, Forall (fun c => P c = true) s -> m before s = None.

Lemma sub_from_untouched s : forall before,
  Forall (fun c => P c = true) s -> sub_from m 0 before s = s.
Proof.
  induction s as [|c r IH]; intros before Hs; [reflexivity|].
  cbn [sub_from]. rewrite (m_needs _ _ Hs).
  apply Forall_cons in Hs as [_ Hr]. now rewrite IH.
Qed.

End Untouched.


Lemma is_plain_not a c :
  is_plain c = true ->
  (a = "*" \/ a = "_" \/ a = "\" \/ a = "<")%char -> is_char a c = false.
Proof.
  unfold is_plain. intros H Ha. apply negb_true_iff in H.
  repeat (apply orb_false_iff in H as [H ?]).
  destruct Ha as [-> | [-> | [-> | ->]]]; assumption.
Qed.

Lemma is_plain_not_NL c : is_plain c = true -> (c =? NL)%N = false.
Proof.
  unfold is_plain. intros H. apply negb_true_iff in H.
  repeat (apply orb_false_iff in H as [H ?]). assumption.
Qed.

Lemma starts_with_elem prefix : forall s x,
  starts_with prefix s = true -> x ∈ prefix -> x ∈ s.
Proof.
  induction prefix as [|p prefix IH]; intros s x H Hx.
  - apply elem_of_nil in Hx. contradiction.
  - destruct s as [|c s]; [discriminate|]. simpl in H.
    apply andb_prop in H as [Hp H]. apply N.eqb_eq in Hp. subst c.
    apply elem_of_cons in Hx as [->|Hx]; [left|right; eauto].
Qed.

Lemma fixed_needs_newline text repl before s :
  NL ∈ text -> Forall (fun c => is_plain c = true) s ->
  fixed text repl before s = None.
Proof.
  intros Hin Hs. unfold fixed. destruct (starts_with text s) eqn:E; [|reflexivity].
  pose proof (starts_with_elem _ _ _ E Hin) as Hnl.
  rewrite Forall_forall in Hs. apply Hs, is_plain_not_NL in Hnl. discriminate.
Qed.

Ltac head_plain Hs :=
  match type of Hs with
  | Forall _ (?c :: _) =>
      let Hc := fresh "Hc" in
      pose proof (Forall_inv Hs) as Hc; cbv beta in Hc
  end.

Lemma bold_needs before s :
  Forall (fun c => is_plain c = true) s -> bold before s = None.
Proof.
  intros Hs. destruct s as [|a [|b r]]; try reflexivity.
  head_plain Hs. unfold bold. rewrite (is_plain_not "*" a) by auto.
  reflexivity.
Qed.

Lemma italic_underscore_needs before s :
  Forall (fun c => is_plain c = true) s -> italic_underscore before s = None.
Proof.
  intros Hs. destruct s as [|a r]; try reflexivity.
  head_plain Hs. unfold italic_underscore, bare_underscore.
  rewrite (is_plain_not "_" a) by auto. reflexivity.
Qed.

Lemma br_tag_needs before s :
  Forall (fun c => is_plain c = true) s -> br_tag before s = None.
Proof.
  intros Hs. destruct s as [|a [|b [|c r]]]; try reflexivity.
  head_plain Hs. unfold br_tag. rewrite (is_plain_not "<" a) by auto.
  reflexivity.
Qed.

(** X11: a text with no asterisk, underscore, backslash, newline or [<] comes
    out of both conversions as it went in. *)
Theorem convert_markdown_plain_text (text : list N) :
  Forall (fun c => is_plain c = true) text ->
  convert_markdown_to_html text = text
  /\ convert_markdown_to_html_bot (Some text) = text.
Proof.
  intros H.
  unfold convert_markdown_to_html, convert_markdown_to_html_bot, sub.
  rewrite (sub_from_untouched is_plain bold bold_needs) by exact H.
  rewrite (sub_from_untouched is_plain italic_underscore
             italic_underscore_needs) by exact H.
  rewrite (sub_from_no_match italic_asterisk) by apply italic_asterisk_never.
  assert (Hfixed : forall pattern repl,
             NL ∈ pattern -> sub_from (fixed pattern repl) 0 None text = text).
  { intros pattern repl Hin.
    apply (sub_from_untouched is_plain); [|exact H].
    intros. now apply fixed_needs_newline. }
  rewrite !Hfixed by set_solver.
  rewrite (sub_from_untouched is_plain br_tag br_tag_needs) by exact H.
  split; reflexivity.
Qed.

Lemma convert_markdown_plain_text_witness :
  convert_markdown_to_html (py "Hello, world.") = py "Hello, world."
  /\ convert_markdown_to_html_bot (Some (py "Hello, world."))
     = py "Hello, world.".
Proof.
  apply (convert_markdown_plain_text (py "Hello, world.")).
  repeat constructor.
Defined.

(** *** One span in plain surroundings *)

Lemma before_end_cons before c s :
  before_end before (c :: s) = before_end (Some c) s.
Proof.
  unfold before_end. destruct s as [|d s]; [reflexivity|].
  change (last (c :: d :: s)) with (last (d :: s)).
  destruct (last (d :: s)) eqn:E; [reflexivity|].
  apply last_None in E. discriminate.
Qed.

Section OneSpan.

Variable P : N -> bool.
Variable m : option N -> list N -> option (list N * nat).
Hypothesis m_head : forall before c r, P c = true -> m before (c :: r) = None.

(** Characters that cannot start a match are copied. *)
Lemma sub_from_prefix a s : forall before,
  Forall (fun c => P c = true) a ->
  sub_from m 0 before (a ++ s) = a ++ sub_from m 0 (before_end before a) s.
Proof.
  induction a as [|c a IH]; intros before Ha; [reflexivity|].
  apply Forall_cons in Ha as [Hc Ha].
  cbn [app sub_from]. rewrite (m_head _ _ _ Hc), (IH _ Ha).
  now rewrite before_end_cons.
Qed.

Lemma sub_from_all a before :
  Forall (fun c => P c = true) a -> sub_from m 0 before a = a.
Proof.
  intros Ha. rewrite <- (app_nil_r a) at 1.
  rewrite (sub_from_prefix a [] _ Ha). simpl. now rewrite app_nil_r.
Qed.

Lemma sub_from_skip span rest : forall before,
  sub_from m (length span) before (span ++ rest)
  = sub_from m 0 (before_end before span) rest.
Proof.
  induction span as [|c span IH]; intros before.
  - destruct rest; reflexivity.
  - cbn [length app sub_from]. rewrite IH. now rewrite before_end_cons.
Qed.

(** A match between characters that cannot start one is replaced. *)
Lemma sub_from_span a span repl rest before :
  Forall (fun c => P c = true) a ->
  Forall (fun c => P c = true) rest ->
  span <> [] ->
  m (before_end before a) (span ++ rest) = Some (repl, length span) ->
  sub_from m 0 before (a ++ span ++ rest) = a ++ repl ++ rest.
Proof.
  intros Ha Hrest Hne Hm. rewrite (sub_from_prefix _ _ _ Ha). f_equal.
  destruct span as [|c span]; [congruence|].
  cbn [app sub_from] in *. rewrite Hm. f_equal.
  cbn [length]. rewrite Nat.sub_succ, Nat.sub_0_r, sub_from_skip.
  now apply sub_from_all.
Qed.

End OneSpan.


Lemma lazy_group_plain closing t s : forall before k,
  (forall b c r, is_plain c = true -> closing b (c :: r) = None) ->
  Forall (fun c => is_plain c = true) t ->
  closing (before_end before t) s = Some k ->
  lazy_group closing before (t ++ s) = Some (t, (length t + k)%nat).
Proof.
  induction t as [|c t IH]; intros before k Hhead Ht Hk.
  - change (before_end before []) with before in Hk.
    destruct s; cbn [app lazy_group]; rewrite Hk; reflexivity.
  - apply Forall_cons in Ht as [Hc Ht].
    cbn [app lazy_group]. rewrite (Hhead _ _ _ Hc), (is_plain_not_NL _ Hc).
    rewrite before_end_cons in Hk. rewrite (IH _ _ Hhead Ht Hk). reflexivity.
Qed.

Lemma bold_head before c r : is_plain c = true -> bold before (c :: r) = None.
Proof.
  intros Hc. unfold bold. destruct r; [reflexivity|].
  now rewrite (is_plain_not "*" c) by auto.
Qed.

Lemma italic_underscore_head before c r :
  is_plain c = true -> italic_underscore before (c :: r) = None.
Proof.
  intros Hc. unfold italic_underscore, bare_underscore.
  now rewrite (is_plain_not "_" c) by auto.
Qed.

Lemma before_end_plain before s :
  Forall (fun c => is_plain c = true) s ->
  negb (is_before "\" before) = true ->
  negb (is_before "\" (before_end before s)) = true.
Proof.
  intros Hs Hb. unfold before_end. destruct (last s) as [d|] eqn:E; [|exact Hb].
  apply last_Some_elem_of in E. rewrite Forall_forall in Hs.
  simpl. now rewrite (is_plain_not "\" d) by auto.
Qed.

(** The bold span, as [sub bold] rewrites it. *)
Lemma sub_bold_span a t b :
  Forall (fun c => is_plain c = true) a ->
  Forall (fun c => is_plain c = true) t ->
  Forall (fun c => is_plain c = true) b ->
  sub bold (a ++ (py "**" ++ t ++ py "**") ++ b) = a ++ wrap "b" t ++ b.
Proof.
  intros Ha Ht Hb. unfold sub.
  apply (sub_from_span is_plain bold bold_head); try assumption.
  - discriminate.
  - rewrite <- !app_assoc. cbn [py app map list_ascii_of_string].
    unfold bold. rewrite !Splitter.is_char_ch. cbn [andb].
    rewrite (lazy_group_plain two_asterisks t (ch "*" :: ch "*" :: b) _ 2).
    + do 2 f_equal. cbn [length]. rewrite !length_app. simpl. lia.
    + intros ? c r Hc. unfold two_asterisks. destruct r; [reflexivity|].
      now rewrite (is_plain_not "*" c) by auto.
    + assumption.
    + reflexivity.
Qed.

(** The italic span, as [sub italic_underscore] rewrites it. *)
Lemma sub_italic_span a t b :
  Forall (fun c => is_plain c = true) a ->
  Forall (fun c => is_plain c = true) t ->
  Forall (fun c => is_plain c = true) b ->
  sub italic_underscore (a ++ (py "_" ++ t ++ py "_") ++ b)
  = a ++ wrap "i" t ++ b.
Proof.
  intros Ha Ht Hb. unfold sub.
  apply (sub_from_span is_plain italic_underscore italic_underscore_head);
    try assumption.
  - discriminate.
  - rewrite <- !app_assoc. cbn [py app map list_ascii_of_string].
    unfold italic_underscore, bare_underscore at 1.
    rewrite Splitter.is_char_ch, (before_end_plain None a Ha eq_refl).
    cbn [andb].
    rewrite (lazy_group_plain bare_underscore t (ch "_" :: b) _ 1).
    + do 2 f_equal. cbn [length]. rewrite !length_app. simpl. lia.
    + intros ? c r Hc. unfold bare_underscore.
      now rewrite (is_plain_not "_" c) by auto.
    + assumption.
    + unfold bare_underscore. rewrite Splitter.is_char_ch.
      now rewrite (before_end_plain (Some (ch "_")) t Ht eq_refl).
Qed.

Lemma italic_underscore_head' before c r :
  is_char "_" c = false -> italic_underscore before (c :: r) = None.
Proof.
  intros Hc. unfold italic_underscore, bare_underscore. now rewrite Hc.
Qed.

Lemma bold_head' before c r :
  is_char "*" c = false -> bold before (c :: r) = None.
Proof. intros Hc. unfold bold. destruct r; [reflexivity|]. now rewrite Hc. Qed.

Lemma br_tag_head before c r :
  is_char "<" c = false -> br_tag before (c :: r) = None.
Proof.
  intros Hc. unfold br_tag. destruct r as [|? [|? ?]]; try reflexivity.
  now rewrite Hc.
Qed.

Lemma fixed_needs_newline' text repl before s :
  NL ∈ text -> Forall (fun c => negb (c =? NL)%N = true) s ->
  fixed text repl before s = None.
Proof.
  intros Hin Hs. unfold fixed.
  destruct (starts_with text s) eqn:E; [|reflexivity].
  pose proof (starts_with_elem _ _ _ E Hin) as Hnl.
  rewrite Forall_forall in Hs. apply Hs in Hnl.
  now rewrite N.eqb_refl in Hnl.
Qed.

(** A span wrapped in a [b] or [i] element between plain texts holds
    nothing for the substitutions that follow. *)
Lemma wrapped_settled (x : ascii) a t b :
  (x = "b" \/ x = "i")%char ->
  Forall (fun c => is_plain c = true) a ->
  Forall (fun c => is_plain c = true) t ->
  Forall (fun c => is_plain c = true) b ->
  let text := a ++ wrap (String x EmptyString) t ++ b in
  sub bold text = text
  /\ sub italic_underscore text = text
  /\ (forall pattern repl, NL ∈ pattern -> sub (fixed pattern repl) text = text)
  /\ sub br_tag text = text.
Proof.
  intros Hx Ha Ht Hb text.
  assert (Hall : forall Q : N -> bool,
             (forall c, is_plain c = true -> Q c = true) ->
             Q (ch "<") = true -> Q (ch ">") = true -> Q (ch "/") = true ->
             Q (ch "b") = true -> Q (ch "i") = true ->
             Forall (fun c => Q c = true) text).
  { intros Q Hplain ? ? ? ? ?.
    assert (Hq : forall s, Forall (fun c => is_plain c = true) s ->
                           Forall (fun c => Q c = true) s)
      by (intros s Hs; eapply Forall_impl; [exact Hs|exact Hplain]).
    subst text. unfold wrap.
    destruct Hx as [-> | ->];
      repeat (apply Forall_app_2 || apply Forall_cons_2
              || apply Forall_nil_2 || apply Hq); assumption. }
  split; [|split; [|split]].
  - apply (sub_from_all (fun c => negb (is_char "*" c)) bold).
    + intros ? c r Hc. apply bold_head'. now apply negb_true_iff.
    + apply Hall; try reflexivity. intros c Hc.
      now rewrite (is_plain_not "*" c) by auto.
  - apply (sub_from_all (fun c => negb (is_char "_" c)) italic_underscore).
    + intros ? c r Hc. apply italic_underscore_head'. now apply negb_true_iff.
    + apply Hall; try reflexivity. intros c Hc.
      now rewrite (is_plain_not "_" c) by auto.
  - intros pattern repl Hin.
    apply (sub_from_untouched (fun c => negb (c =? NL)%N)).
    + intros. now apply fixed_needs_newline'.
    + apply Hall; try reflexivity. intros c Hc.
      now rewrite (is_plain_not_NL c).
  - assert (Hlt : forall s, Forall (fun c => is_plain c = true) s ->
                            Forall (fun c => negb (is_char "<" c) = true) s).
    { intros s Hs. eapply Forall_impl; [exact Hs|]. intros c Hc. cbv beta.
      now rewrite (is_plain_not "<" c) by auto. }
    assert (Hhead : forall before c r,
               negb (is_char "<" c) = true -> br_tag before (c :: r) = None).
    { intros ? c r Hc. apply br_tag_head. now apply negb_true_iff. }
    subst text. unfold sub, wrap.
    rewrite (sub_from_prefix _ br_tag Hhead a _ _ (Hlt a Ha)). f_equal.
    replace ((py "<" ++ py (String x EmptyString) ++ py ">" ++ t ++ py "</"
              ++ py (String x EmptyString) ++ py ">") ++ b)
      with (ch "<" :: ([ch x; ch ">"] ++ t)
            ++ ch "<" :: [ch "/"; ch x; ch ">"] ++ b)
      by (cbn [py map list_ascii_of_string app];
          rewrite <- !app_assoc; reflexivity).
    assert (Hx' : negb (is_char "<" (ch x)) = true)
      by (destruct Hx as [-> | ->]; reflexivity).
    set (before := before_end None a). clearbody before.
    assert (Hstep : forall bf c r,
               br_tag bf (c :: r) = None ->
               sub_from br_tag 0 bf (c :: r)
               = c :: sub_from br_tag 0 (Some c) r).
    { intros bf c r H. cbn [sub_from]. now rewrite H. }
    rewrite Hstep by (destruct Hx as [-> | ->]; reflexivity). f_equal.
    rewrite (sub_from_prefix _ br_tag Hhead ([ch x; ch ">"] ++ t)
               (ch "<" :: [ch "/"; ch x; ch ">"] ++ b)).
    2:{ apply Forall_app_2; [|apply Hlt, Ht].
        repeat (apply Forall_cons_2; [assumption || reflexivity|]).
        constructor. }
    f_equal. rewrite Hstep by reflexivity. f_equal.
    apply (sub_from_all _ br_tag Hhead).
    repeat (apply Forall_cons_2; [assumption || reflexivity|]). apply Hlt, Hb.
Qed.

(** X12: between texts with no asterisk, underscore, backslash, newline or
    [<], a span of such text in double asterisks comes out of both
    conversions as a [b] element, and one in underscores as an [i]
    element; nothing else changes. *)
Theorem convert_markdown_span (a t b : list N) :
  Forall (fun c => is_plain c = true) a ->
  Forall (fun c => is_plain c = true) t ->
  Forall (fun c => is_plain c = true) b ->
  convert_markdown_to_html (a ++ (py "**" ++ t ++ py "**") ++ b)
  = a ++ wrap "b" t ++ b
  /\ convert_markdown_to_html_bot (Some (a ++ (py "**" ++ t ++ py "**") ++ b))
     = a ++ wrap "b" t ++ b
  /\ convert_markdown_to_html (a ++ (py "_" ++ t ++ py "_") ++ b)
     = a ++ wrap "i" t ++ b
  /\ convert_markdown_to_html_bot (Some (a ++ (py "_" ++ t ++ py "_") ++ b))
     = a ++ wrap "i" t ++ b.
Proof.
  intros Ha Ht Hb.
  destruct (wrapped_settled "b" a t b (or_introl eq_refl) Ha Ht Hb)
    as (_ & Hbi & Hbf & Hbr).
  destruct (wrapped_settled "i" a t b (or_intror eq_refl) Ha Ht Hb)
    as (_ & _ & Hif & Hir).
  assert (Hstar : forall s, sub italic_asterisk s = s)
    by (intros s; apply sub_from_no_match, italic_asterisk_never).
  assert (Hbold : sub bold (a ++ (py "_" ++ t ++ py "_") ++ b)
                  = a ++ (py "_" ++ t ++ py "_") ++ b).
  { apply (sub_from_all (fun c => negb (is_char "*" c)) bold).
    - intros ? c r Hc. apply bold_head'. now apply negb_true_iff.
    - assert (Hq : forall s, Forall (fun c => is_plain c = true) s ->
                             Forall (fun c => negb (is_char "*" c) = true) s).
      { intros s Hs. eapply Forall_impl; [exact Hs|]. intros c Hc. cbv beta.
        now rewrite (is_plain_not "*" c) by auto. }
      repeat (apply Forall_app_2 || apply Forall_cons_2
              || apply Forall_nil_2 || apply Hq); try assumption;
        reflexivity. }
  unfold convert_markdown_to_html, convert_markdown_to_html_bot.
  rewrite (sub_bold_span a t b Ha Ht Hb), Hbold,
    (sub_italic_span a t b Ha Ht Hb), Hbi, !Hstar.
  rewrite !Hbf, !Hif by set_solver. rewrite Hbr, Hir.
  repeat split.
Qed.

Lemma convert_markdown_span_witness :
  convert_markdown_to_html_bot (Some (py "A **very** good day"))
  = py "A <b>very</b> good day".
Proof.
  apply (convert_markdown_span (py "A ") (py "very") (py " good day"));
    repeat constructor.
Defined.
End MarkdownFacts.

(** ** The user store: further properties *)

Module UserStoreFacts.
Import Notions UserManager UserStore.




Lemma str_inj uid uid' : str uid = str uid' -> uid = uid'.
Proof. apply pretty_Z_inj. Qed.

(** What a call leaves of the record of a registered user: everything, but
    for the tokens it adds and the time of the last activity. *)
Lemma exec_keeps_user um c uid u :
  users um !! str uid = Some u ->
  exists u',
    users (exec um c) !! str uid = Some u'
    /\ total_tokens u' = total_tokens u + tokens_reported uid [c]
    /\ user_id u' = user_id u /\ username u' = username u
    /\ first_name u' = first_name u /\ joined_at u' = joined_at u.
Proof.
  intros Hu.
  destruct c; simpl;
    try (exists u; repeat split; [exact Hu | lia]).
  - (* add_user *)
    unfold add_user. case_bool_decide as Hin.
    + exists u. simpl. repeat split; [exact Hu | lia].
    + destruct (negb _); simpl.
      * exists u. repeat split; [exact Hu | lia].
      * rewrite save_users_users. simpl.
        destruct (decide (str uid0 = str uid)) as [E|E].
        -- rewrite E, Hu in Hin. destruct Hin. eauto.
        -- rewrite lookup_insert_ne by exact E.
           exists u. repeat split; [exact Hu | lia].
  - (* update_tokens *)
    unfold update_tokens.
    destruct (users um !! str uid0) as [v|] eqn:Hv; simpl.
    + rewrite save_users_users. simpl.
      case_bool_decide as E.
      * subst uid0. rewrite Hu in Hv. injection Hv as <-.
        rewrite lookup_insert_eq. eexists. split; [reflexivity|].
        simpl. repeat split. lia.
      * rewrite lookup_insert_ne by (intros E'; apply E, str_inj, E').
        exists u. repeat split; [exact Hu | lia].
    + case_bool_decide as E.
      * subst uid0. congruence.
      * exists u. repeat split; [exact Hu | lia].
  - (* update_last_activity *)
    unfold update_last_activity.
    destruct (users um !! str uid0) as [v|] eqn:Hv; simpl.
    + rewrite save_users_users. simpl.
      destruct (decide (str uid0 = str uid)) as [E|E].
      * rewrite E in *. rewrite Hu in Hv. injection Hv as <-.
        rewrite lookup_insert_eq. eexists. split; [reflexivity|].
        simpl. repeat split. lia.
      * rewrite lookup_insert_ne by exact E.
        exists u. repeat split; [exact Hu | lia].
    + exists u. repeat split; [exact Hu | lia].
  - (* save_users *)
    rewrite save_users_users. exists u. repeat split; [exact Hu | lia].
Qed.

(** X13: a registered user stays registered whatever is called, with the id,
    the names and the joining time of the record unchanged, and the token
    total grown by exactly the usage reported for that user. *)
Theorem tokens_accumulate calls : forall um uid u,
  users um !! str uid = Some u ->
  exists u',
    users (exec_all um calls) !! str uid = Some u'
    /\ total_tokens u' = total_tokens u + tokens_reported uid calls
    /\ user_id u' = user_id u /\ username u' = username u
    /\ first_name u' = first_name u /\ joined_at u' = joined_at u.
Proof.
  induction calls as [|c calls IH]; intros um uid u Hu.
  - exists u. simpl. repeat split; [exact Hu | lia].
  - destruct (exec_keeps_user um c uid u Hu)
      as (u1 & Hu1 & Ht1 & Hi1 & Hn1 & Hf1 & Hj1).
    destruct (IH (exec um c) uid u1 Hu1)
      as (u2 & Hu2 & Ht2 & Hi2 & Hn2 & Hf2 & Hj2).
    exists u2. unfold exec_all in *. simpl in *.
    repeat split; try congruence.
    rewrite Ht2, Ht1. destruct c; try lia.
    case_bool_decide; lia.
Qed.

Lemma tokens_accumulate_witness :
  exists u',
    users (exec_all
             (snd (add_user (init "1" 5 Missing) 7 None None "t0" Written))
             [UpdateTokens 7 120 Written; UpdateTokens 8 50 Written;
              AddUser 7 None None "t1" Written; UpdateTokens 7 30 DumpFailed])
      !! str 7 = Some u'
    /\ total_tokens u' = 150.
Proof.
  destruct (tokens_accumulate
              [UpdateTokens 7 120 Written; UpdateTokens 8 50 Written;
               AddUser 7 None None "t1" Written;
               UpdateTokens 7 30 DumpFailed]
              (snd (add_user (init "1" 5 Missing) 7 None None "t0" Written))
              7
              {| user_id := str 7; username := None;
                 first_name := "Unknown"; joined_at := "t0";
                 total_tokens := 0; last_activity := "t0" |} eq_refl)
    as (u' & Hu' & Ht & _).
  exists u'. split; [exact Hu'|exact Ht].
Defined.

(** X14: a user [add_user] has accepted is authorized, and [get_user_info]
    gives the record just made: the id as text, the names as given (the
    first name ['Unknown'] when there is none), no tokens, joined and last
    seen now.  The records of the other users are as they were. *)
Theorem add_user_then_get_user_info um uid uname first now w :
  is_authorized um uid = false ->
  can_accept_new_user um = true ->
  let um' := snd (add_user um uid uname first now w) in
  fst (add_user um uid uname first now w) = true
  /\ is_authorized um' uid = true
  /\ get_user_info um' uid
     = Some {| user_id := str uid; username := uname;
               first_name := or_unknown first; joined_at := now;
               total_tokens := 0; last_activity := now |}
  /\ (forall other, other <> uid ->
        get_user_info um' other = get_user_info um other).
Proof.
  intros Hnew Hroom um'. subst um'.
  unfold is_authorized, get_user_info, add_user in *.
  rewrite Hnew, Hroom. cbn [negb fst snd].
  rewrite save_users_users. cbn [users set_users].
  rewrite lookup_insert_eq.
  split; [reflexivity|]. split; [apply bool_decide_eq_true; eauto|].
  split; [reflexivity|].
  intros other Hne. apply lookup_insert_ne.
  intros E. apply Hne. symmetry. apply str_inj, E.
Qed.

Lemma add_user_then_get_user_info_witness :
  get_user_info
    (snd (add_user (init "1" 5 Missing) 7 (Some "ann") None "t0" OpenFailed))
    7
  = Some {| user_id := "7"; username := Some "ann";
            first_name := "Unknown"; joined_at := "t0";
            total_tokens := 0; last_activity := "t0" |}.
Proof.
  apply (add_user_then_get_user_info (init "1" 5 Missing) 7 (Some "ann")
           None "t0" OpenFailed); reflexivity.
Defined.

Lemma load_users_idempotent um : restorable (load_users um).
Proof.
  unfold restorable, load_users.
  destruct (data_file um) eqn:E; simpl; rewrite E; reflexivity.
Qed.

Lemma exec_restorable um c :
  written c = true -> restorable um -> restorable (exec um c).
Proof.
  intros Hw Hr.
  destruct c; simpl in *; try exact Hr;
    try (destruct w; try discriminate).
  - unfold add_user. case_bool_decide; [exact Hr|].
    destruct (negb _); [exact Hr|]. reflexivity.
  - unfold update_tokens. destruct (users um !! str uid); [reflexivity|exact Hr].
  - unfold update_last_activity.
    destruct (users um !! str uid); [reflexivity|exact Hr].
  - reflexivity.
Qed.

(** X15: as long as every write goes through, the data file keeps up with the
    users: a manager started anew on the file left by any sequence of calls
    holds the same users. *)
Theorem restart_restores_users calls : forall um admin limit,
  restorable um -> forallb written calls = true ->
  users (init admin limit (data_file (exec_all um calls)))
  = users (exec_all um calls).
Proof.
  assert (Hall : forall um, restorable um -> forallb written calls = true ->
                            restorable (exec_all um calls)).
  { induction calls as [|c calls IH]; intros um Hr Hw; [exact Hr|].
    simpl in Hw. apply andb_prop in Hw as [Hc Hw].
    apply (IH (exec um c)); [apply exec_restorable; assumption|exact Hw]. }
  intros um admin limit Hr Hw. specialize (Hall um Hr Hw).
  unfold restorable, load_users, init in *. simpl.
  destruct (data_file (exec_all um calls)); exact Hall.
Qed.

Lemma restart_restores_users_witness :
  users (init "1" 5
           (data_file
              (exec_all (init "1" 5 Missing)
                 [AddUser 7 None None "t0" Written;
                  UpdateTokens 7 12 Written; GetUserCount])))
  = users (exec_all (init "1" 5 Missing)
             [AddUser 7 None None "t0" Written;
              UpdateTokens 7 12 Written; GetUserCount]).
Proof.
  apply (restart_restores_users
           [AddUser 7 None None "t0" Written; UpdateTokens 7 12 Written;
            GetUserCount] (init "1" 5 Missing) "1" 5);
    [apply load_users_idempotent | reflexivity].
Defined.

(** X16: a write that fails is not reported.  [add_user] still returns [True]
    and the user is authorized, but the data file is left without the user
    (or unreadable): a manager started anew on it does not know the user. *)
Theorem add_user_failed_write_lost um uid uname first now w :
  w <> Written ->
  restorable um ->
  is_authorized um uid = false ->
  can_accept_new_user um = true ->
  let um' := snd (add_user um uid uname first now w) in
  fst (add_user um uid uname first now w) = true
  /\ is_authorized um' uid = true
  /\ is_authorized (init (admin_id um') (max_users um') (data_file um')) uid
     = false.
Proof.
  intros Hw Hr Hnew Hroom um'. subst um'.
  unfold is_authorized, add_user in *. rewrite Hnew, Hroom.
  cbn [negb fst snd]. rewrite save_users_users. cbn [users set_users].
  rewrite lookup_insert_eq.
  split; [reflexivity|]. split; [apply bool_decide_eq_true; eauto|].
  apply bool_decide_eq_false in Hnew. apply bool_decide_eq_false.
  unfold restorable, load_users, init in *.
  destruct w; [congruence| |]; cbn.
  - destruct (data_file um); cbn in *; rewrite ?Hr; try exact Hnew;
      rewrite lookup_empty; intros [? ?]; discriminate.
  - rewrite lookup_empty. intros [? ?]; discriminate.
Qed.

Lemma add_user_failed_write_lost_witness :
  is_authorized
    (snd (add_user (init "1" 5 Missing) 7 None None "t0" OpenFailed)) 7
  = true
  /\ is_authorized
       (init "1" 5
          (data_file
             (snd (add_user (init "1" 5 Missing) 7 None None "t0"
                     OpenFailed)))) 7
     = false.
Proof.
  destruct (add_user_failed_write_lost (init "1" 5 Missing) 7 None None
              "t0" OpenFailed) as (_ & H1 & H2);
    [discriminate | apply load_users_idempotent | reflexivity | reflexivity |].
  split; [exact H1|exact H2].
Defined.
End UserStoreFacts.

(** ** The handlers of the bot *)

Module GrammarBotFacts.
Import Text MessageHandler GrammarBot.

(** *** Admission *)

(** X17: the opening of the handlers lets a user in exactly when the user is
    known or there is room.  A user let in is authorized afterwards; a user
    turned away leaves the manager as it was; and users within the limit
    stay within it. *)
Theorem admission_outcome um user_id username first_name now w :
  fst (admission um user_id username first_name now w)
  = UserManager.is_authorized um user_id
    || UserManager.can_accept_new_user um
  /\ (fst (admission um user_id username first_name now w) = true ->
      UserManager.is_authorized
        (snd (admission um user_id username first_name now w)) user_id = true)
  /\ (fst (admission um user_id username first_name now w) = false ->
      snd (admission um user_id username first_name now w) = um)
  /\ (UserManager.within_limit um ->
      UserManager.within_limit
        (snd (admission um user_id username first_name now w))).
Proof.
  unfold admission.
  destruct (UserManager.is_authorized um user_id) eqn:Hin.
  - cbn [fst snd orb]. split; [reflexivity|]. split; [|split].
    + intros _. unfold UserManager.is_authorized in *.
      apply bool_decide_eq_true in Hin as [u Hu].
      apply bool_decide_eq_true. unfold UserManager.update_last_activity.
      rewrite Hu, UserStore.save_users_users. cbn.
      rewrite lookup_insert_eq. eauto.
    + discriminate.
    + intros Hlim. unfold UserManager.is_authorized in Hin.
      apply bool_decide_eq_true in Hin as [u Hu].
      unfold UserManager.update_last_activity. rewrite Hu.
      eapply UserStore.rewrite_record_within_limit; eauto.
  - destruct (UserManager.can_accept_new_user um) eqn:Hroom.
    + cbn [fst snd orb]. split; [reflexivity|]. split; [|split].
      * intros _. unfold UserManager.is_authorized, UserManager.add_user in *.
        rewrite Hin, Hroom. cbn. rewrite UserStore.save_users_users. cbn.
        apply bool_decide_eq_true. rewrite lookup_insert_eq. eauto.
      * discriminate.
      * intros Hlim. now apply UserStore.add_user_within_limit.
    + cbn [fst snd orb]. repeat split; try discriminate. tauto.
Qed.

(** *** The queue *)

Lemma combine_messages_ids {Id : Type} (messages : list (list N * Id)) :
  snd (combine_messages messages) = map snd messages.
Proof. destruct messages as [|m [|m2 later]]; reflexivity. Qed.

Lemma enqueue_lookup queue user_id text id :
  enqueue queue user_id text id !! user_id
  = Some (default [] (queue !! user_id) ++ [(text, id)])
  /\ forall other, other <> user_id ->
       enqueue queue user_id text id !! other = queue !! other.
Proof.
  unfold enqueue. split.
  - rewrite lookup_insert_eq. destruct (queue !! user_id) eqn:E.
    + now rewrite E.
    + now rewrite lookup_insert_eq.
  - intros other Hne. rewrite lookup_insert_ne by congruence.
    destruct (queue !! user_id); [reflexivity|].
    now rewrite lookup_insert_ne by congruence.
Qed.

Lemma enqueue_all_lookup messages : forall queue user_id,
  messages <> [] ->
  enqueue_all queue user_id messages !! user_id
  = Some (default [] (queue !! user_id) ++ messages)
  /\ forall other, other <> user_id ->
       enqueue_all queue user_id messages !! other = queue !! other.
Proof.
  induction messages as [|[text id] messages IH]; intros queue user_id Hne;
    [congruence|].
  destruct (enqueue_lookup queue user_id text id) as [Hme Hothers].
  unfold enqueue_all in *. cbn [fold_left fst snd].
  destruct messages as [|m messages].
  - cbn [fold_left]. split; [exact Hme|exact Hothers].
  - destruct (IH (enqueue queue user_id text id) user_id) as [IH1 IH2];
      [discriminate|].
    split.
    + rewrite IH1, Hme. simpl. rewrite <- app_assoc. reflexivity.
    + intros other Hother. rewrite IH2 by exact Hother. now apply Hothers.
Qed.

Lemma process_pending MAX_MESSAGE_LENGTH queue user_id first later :
  queue !! user_id = Some (first :: later) ->
  process_message_queue MAX_MESSAGE_LENGTH queue user_id
  = (<[user_id := []]> queue,
     Returned
       (if len (fst (combine_messages (first :: later))) >? MAX_MESSAGE_LENGTH
        then TooLong (snd first)
        else ToCorrect (fst (combine_messages (first :: later)))
                       (map snd (first :: later)))).
Proof.
  intros Hq. unfold process_message_queue. rewrite Hq.
  pose proof (combine_messages_ids (first :: later)) as Hids.
  destruct (combine_messages (first :: later)) as [combined_text ids].
  cbn [fst snd] in *. subst ids.
  destruct (len combined_text >? MAX_MESSAGE_LENGTH); reflexivity.
Qed.

Lemma process_nothing MAX_MESSAGE_LENGTH queue user_id :
  queue !! user_id = Some [] ->
  process_message_queue MAX_MESSAGE_LENGTH queue user_id
  = (queue, Returned NothingQueued).
Proof. intros Hq. unfold process_message_queue. now rewrite Hq. Qed.

(** X18: the messages a user sends while nothing of theirs is pending are
    taken from the queue together, in the order they came: they are
    combined, and the text is sent for correction with their ids, or turned
    down in a reply to the first of them when it is longer than
    [MAX_MESSAGE_LENGTH].  The queue of the user is left empty, so that the
    timers of the later messages find nothing, and the queues of the other
    users are not touched. *)
Theorem messages_processed_once MAX_MESSAGE_LENGTH queue user_id first later :
  default [] (queue !! user_id) = [] ->
  let messages := first :: later in
  let processed :=
    process_message_queue MAX_MESSAGE_LENGTH
      (enqueue_all queue user_id messages) user_id in
  snd processed
  = Returned
      (if len (fst (combine_messages messages)) >? MAX_MESSAGE_LENGTH
       then TooLong (snd first)
       else ToCorrect (fst (combine_messages messages)) (map snd messages))
  /\ fst processed !! user_id = Some []
  /\ process_message_queue MAX_MESSAGE_LENGTH (fst processed) user_id
     = (fst processed, Returned NothingQueued)
  /\ forall other, other <> user_id -> fst processed !! other = queue !! other.
Proof.
  intros Hpending messages processed.
  destruct (enqueue_all_lookup messages queue user_id) as [Hme Hothers];
    [discriminate|].
  rewrite Hpending in Hme. cbn [app] in Hme.
  subst processed messages.
  rewrite (process_pending _ _ _ _ _ Hme). cbn [fst snd].
  split; [reflexivity|]. split; [apply lookup_insert_eq|].
  split; [apply process_nothing, lookup_insert_eq|].
  intros other Hne. rewrite lookup_insert_ne by congruence.
  now apply Hothers.
Qed.

Lemma messages_processed_once_witness :
  snd (process_message_queue 4000
         (enqueue_all ∅ 7 [(py "This is a well-", 1); (py "known fact.", 2)])
         7)
  = Returned (ToCorrect (py "This is a wellknown fact.") [1; 2]).
Proof.
  apply (messages_processed_once 4000 ∅ 7 (py "This is a well-", 1)
           [(py "known fact.", 2)]).
  reflexivity.
Defined.

(** *** The text sent for copying *)

Lemma escape_char_safe c :
  Forall (fun d => is_char "<" d = false /\ is_char ">" d = false)
         (escape_char c).
Proof.
  unfold escape_char.
  destruct (is_char "&" c) eqn:E1; [repeat constructor|].
  destruct (is_char "<" c) eqn:E2; [repeat constructor|].
  destruct (is_char ">" c) eqn:E3; [repeat constructor|].
  destruct (c =? 34)%N; [repeat constructor|].
  destruct (is_char "'" c); repeat constructor; assumption.
Qed.

Lemma html_escape_safe s :
  Forall (fun d => is_char "<" d = false /\ is_char ">" d = false)
         (html_escape s).
Proof.
  unfold html_escape. induction s as [|c s IH]; [constructor|].
  simpl. apply Forall_app_2; [apply escape_char_safe|exact IH].
Qed.

Lemma render_literals l : Spec.render (map Spec.Lit l) = l.
Proof.
  induction l as [|c l IH]; [reflexivity|].
  cbn [map]. rewrite Splitter.render_cons, IH. reflexivity.
Qed.

Lemma open_stack_literals l ts stack :
  Spec.open_stack (map (fun c => inr c) l ++ ts) stack
  = Spec.open_stack ts stack.
Proof. induction l as [|c l IH]; [reflexivity|exact IH]. Qed.

(** X19: whatever the text, what is sent for copying is well-formed: one
    [pre] element whose content has no [<] and no [>], and reads as the
    escaped plain text. *)
Theorem copiable_text_well_formed (text : list N) :
  Spec.well_formed (copiable_text text) = true
  /\ Spec.visible_text (copiable_text text)
     = html_escape (Bot.plain_text text)
  /\ Forall (fun d => is_char "<" d = false /\ is_char ">" d = false)
            (html_escape (Bot.plain_text text)).
Proof.
  pose proof (html_escape_safe (Bot.plain_text text)) as Hsafe.
  set (content := html_escape (Bot.plain_text text)) in *.
  set (ps := Spec.Opening (py "pre") :: map Spec.Lit content
             ++ [Spec.Closing (py "pre")]).
  assert (Hrender : copiable_text text = Spec.render ps).
  { unfold copiable_text, ps. fold content.
    rewrite Splitter.render_cons, Splitter.render_app, render_literals.
    reflexivity. }
  assert (Hok : Spec.pieces_ok ps).
  { unfold ps. constructor; [reflexivity|]. apply Forall_app_2.
    - apply Forall_fmap. eapply Forall_impl; [exact Hsafe|].
      intros c [Hc _]. simpl. now rewrite Hc.
    - repeat constructor. }
  assert (Htokens : Spec.tokens (copiable_text text) = map Spec.token_of ps).
  { rewrite Hrender, <- (app_nil_r (Spec.render ps)).
    rewrite (Splitter.tokens_render _ _ Hok). now rewrite app_nil_r. }
  assert (Hmap : map Spec.token_of ps
                 = inl (Spec.OpenTag (py "pre") false)
                   :: map (fun c => inr c) content
                   ++ [inl (Spec.CloseTag (py "pre"))]).
  { unfold ps. cbn [map Spec.token_of]. rewrite map_app, map_map. reflexivity. }
  split; [|split; [|exact Hsafe]].
  - assert (Hstack : Spec.open_stack (map Spec.token_of ps) [] = Some []).
    { rewrite Hmap. cbn [Spec.open_stack]. rewrite open_stack_literals.
      reflexivity. }
    unfold Spec.well_formed, Spec.balanced. rewrite Htokens, Hstack, Hmap.
    cbn [forallb andb]. rewrite forallb_app. cbn [forallb].
    rewrite !andb_true_r. apply forallb_forall. intros t Ht.
    apply in_map_iff in Ht as (c & <- & Hc).
    rewrite Forall_forall in Hsafe.
    apply list_elem_of_In, Hsafe in Hc as [Hc _]. now rewrite Hc.
  - rewrite Hrender, (Splitter.visible_text_render _ Hok).
    unfold ps, Spec.literals. csimpl. rewrite omap_app. csimpl.
    rewrite app_nil_r. clear. induction content as [|c l IH]; [reflexivity|].
    csimpl. now f_equal.
Qed.

(** *** The data of the buttons *)

Lemma split_no_separator sep s :
  Forall (fun c => (c =? sep)%N = false) s -> split sep s = [s].
Proof.
  induction 1 as [|c s Hc _ IH]; [reflexivity|].
  simpl. now rewrite Hc, IH.
Qed.

Lemma split_at_separator sep a r :
  Forall (fun c => (c =? sep)%N = false) a ->
  split sep (a ++ sep :: r) = a :: split sep r.
Proof.
  induction 1 as [|c a Hc _ IH]; simpl.
  - now rewrite N.eqb_refl.
  - now rewrite Hc, IH.
Qed.

Lemma digits_go x : forall s,
  Forall (fun a => is_char "_" (ch a) = false) (list_ascii_of_string s) ->
  Forall (fun a => is_char "_" (ch a) = false)
         (list_ascii_of_string (pretty_N_go x s)).
Proof.
  induction (N.lt_wf_0 x) as [x _ IH]. intros s Hs.
  destruct (decide (x = 0)%N) as [->|Hx].
  - now rewrite pretty_N_go_0.
  - rewrite pretty_N_go_step by lia. apply IH.
    + apply N.div_lt; lia.
    + simpl. constructor; [|exact Hs].
      unfold pretty_N_char. repeat case_match; reflexivity.
Qed.

(** The decimal text of an id has no underscore. *)
Lemma str_no_underscore message_id :
  Forall (fun c => (c =? ch "_")%N = false) (str message_id).
Proof.
  unfold str, py. apply Forall_fmap.
  assert (HN : forall x, Forall (fun a => is_char "_" (ch a) = false)
                           (list_ascii_of_string (pretty (x : N)))).
  { intros x. unfold pretty, pretty_N. case_decide; [repeat constructor|].
    apply digits_go. constructor. }
  destruct message_id as [|p|p]; unfold pretty, pretty_Z.
  - repeat constructor.
  - apply (HN (Npos p)).
  - simpl. constructor; [reflexivity|]. apply (HN (Npos p)).
Qed.

(** X20: the data written on a button leads [handle_callback] back to the
    branch the button was made for, with the id of the message, and for the
    style and navigation buttons the style or the direction, as they were
    written (a name without underscore). *)
Theorem dispatch_button (message_id : Z) :
  dispatch (explain_button (str message_id))
  = Returned (Explain (str message_id))
  /\ dispatch (fluency_button (str message_id))
     = Returned (Fluency (str message_id))
  /\ dispatch (reformulate_button (str message_id))
     = Returned (Reformulate (str message_id))
  /\ (forall style,
        Forall (fun c => (c =? ch "_")%N = false) style ->
        dispatch (style_button style (str message_id))
        = Returned (Style style (str message_id)))
  /\ (forall direction,
        Forall (fun c => (c =? ch "_")%N = false) direction ->
        dispatch (nav_button direction (str message_id))
        = Returned (Nav direction (str message_id))).
Proof.
  pose proof (str_no_underscore message_id) as Hid.
  assert (H1 : forall action : string,
             Forall (fun c => (c =? ch "_")%N = false) (py action) ->
             split (ch "_") (py action ++ ch "_" :: str message_id)
             = [py action; str message_id]).
  { intros action Ha. rewrite (split_at_separator _ _ _ Ha).
    now rewrite (split_no_separator _ _ Hid). }
  assert (H2 : forall (action : string) word,
             Forall (fun c => (c =? ch "_")%N = false) (py action) ->
             Forall (fun c => (c =? ch "_")%N = false) word ->
             split (ch "_")
               (py action ++ ch "_" :: word ++ ch "_" :: str message_id)
             = [py action; word; str message_id]).
  { intros action word Ha Hw. rewrite (split_at_separator _ _ _ Ha).
    rewrite (split_at_separator _ _ _ Hw).
    now rewrite (split_no_separator _ _ Hid). }
  unfold dispatch, explain_button, fluency_button, reformulate_button,
    style_button, nav_button.
  split; [|split; [|split; [|split]]].
  - change (py "explain_" ++ str message_id)
      with (py "explain" ++ ch "_" :: str message_id).
    rewrite H1 by repeat constructor. reflexivity.
  - change (py "fluency_" ++ str message_id)
      with (py "fluency" ++ ch "_" :: str message_id).
    rewrite H1 by repeat constructor. reflexivity.
  - change (py "reformulate_" ++ str message_id)
      with (py "reformulate" ++ ch "_" :: str message_id).
    rewrite H1 by repeat constructor. reflexivity.
  - intros style Hs.
    change (py "style_" ++ style ++ py "_" ++ str message_id)
      with (py "style" ++ ch "_" :: style ++ ch "_" :: str message_id).
    rewrite H2 by (repeat constructor || assumption). reflexivity.
  - intros direction Hd.
    change (py "nav_" ++ direction ++ py "_" ++ str message_id)
      with (py "nav" ++ ch "_" :: direction ++ ch "_" :: str message_id).
    rewrite H2 by (repeat constructor || assumption). reflexivity.
Qed.

(** X21: data without an underscore, as the [noop] of the counter between the
    arrows, makes [handle_callback] fail on [data[1]] before it takes any
    branch. *)
Theorem dispatch_without_underscore (query_data : list N) :
  Forall (fun c => (c =? ch "_")%N = false) query_data ->
  dispatch query_data = Raised IndexError.
Proof.
  intros H. unfold dispatch. now rewrite (split_no_separator _ _ H).
Qed.

Lemma dispatch_without_underscore_witness :
  dispatch counter_button = Raised IndexError.
Proof.
  apply (dispatch_without_underscore counter_button). repeat constructor.
Defined.

(** *** The versions *)

Lemma index_in_range {A : Type} (l : list A) (i : Z) :
  0 <= i < Z.of_nat (length l) ->
  exists x, index l i = Returned x /\ l !! Z.to_nat i = Some x.
Proof.
  intros Hi. unfold index.
  destruct (Z.leb_spec 0 i); [|lia].
  destruct (lookup_lt_is_Some_2 l (Z.to_nat i)) as [x Hx]; [lia|].
  rewrite Hx. eauto.
Qed.

Lemma nav_new_index direction conv :
  index_ok conv -> fluency_versions conv <> [] ->
  let new_index :=
    if str_eqb direction (py "prev")
    then Z.max 0 (current_version_index conv - 1)
    else Z.min (Z.of_nat (length (fluency_versions conv)) - 1)
               (current_version_index conv + 1) in
  0 <= new_index < Z.of_nat (length (fluency_versions conv)).
Proof.
  unfold index_ok. intros Hok Hne.
  destruct (fluency_versions conv) as [|v versions]; [congruence|].
  destruct (str_eqb direction (py "prev")); cbn [length] in *; lia.
Qed.

(** What [nav] gives on an entry whose index is in order. *)
Lemma nav_in_order direction conv :
  index_ok conv ->
  index_ok (fst (nav direction conv))
  /\ fluency_versions (fst (nav direction conv)) = fluency_versions conv
  /\ original (fst (nav direction conv)) = original conv
  /\ corrected (fst (nav direction conv)) = corrected conv
  /\ match snd (nav direction conv) with
     | Raised _ => False
     | Returned NoVersions => fluency_versions conv = []
     | Returned Unmoved => True
     | Returned (Version text number total) =>
         total = Z.of_nat (length (fluency_versions conv))
         /\ 1 <= number <= total
         /\ current_version_index (fst (nav direction conv)) = number - 1
         /\ exists version_text,
              fluency_versions conv !! Z.to_nat (number - 1)
              = Some version_text
              /\ text = copiable_text version_text
     end.
Proof.
  intros Hok. unfold nav.
  destruct (fluency_versions conv) as [|v versions] eqn:Hv.
  { cbn [fst snd]. rewrite Hv. auto. }
  assert (Hne : fluency_versions conv <> []) by (rewrite Hv; discriminate).
  pose proof (nav_new_index direction conv Hok Hne) as Hnew.
  rewrite Hv in Hnew. cbv zeta in Hnew.
  set (new_index :=
         if str_eqb direction (py "prev")
         then Z.max 0 (current_version_index conv - 1)
         else Z.min (Z.of_nat (length (v :: versions)) - 1)
                    (current_version_index conv + 1)) in *.
  destruct (new_index =? current_version_index conv).
  { cbn [fst snd]. rewrite Hv. auto. }
  destruct (index_in_range (v :: versions) new_index Hnew)
    as (version_text & -> & Hlookup).
  cbn [fst snd fluency_versions original corrected current_version_index].
  split; [unfold index_ok; cbn [fluency_versions current_version_index];
          exact Hnew|].
  do 3 (split; [reflexivity|]).
  split; [reflexivity|]. split; [lia|]. split; [lia|].
  exists version_text. split; [|reflexivity].
  now replace (new_index + 1 - 1) with new_index by lia.
Qed.

Lemma step_in_order MAX_MESSAGE_LENGTH conv e :
  index_ok conv ->
  Forall (fun v => len (Bot.plain_text v) <= MAX_MESSAGE_LENGTH)
         (fluency_versions conv) ->
  index_ok (step MAX_MESSAGE_LENGTH conv e)
  /\ Forall (fun v => len (Bot.plain_text v) <= MAX_MESSAGE_LENGTH)
            (fluency_versions (step MAX_MESSAGE_LENGTH conv e))
  /\ original (step MAX_MESSAGE_LENGTH conv e) = original conv
  /\ corrected (step MAX_MESSAGE_LENGTH conv e) = corrected conv.
Proof.
  intros Hok Hfit. destruct e as [style reply|reply|direction]; cbn [step].
  - unfold choose_style.
    destruct (corrected conv) eqn:Hc, reply as [[improved_text tokens]|];
      rewrite ?Hc; auto.
    destruct (Z.gtb_spec
                (len (Bot.plain_text
                        (Markdown.convert_markdown_to_html_bot improved_text)))
                MAX_MESSAGE_LENGTH); rewrite ?Hc; auto.
    cbn [fluency_versions current_version_index original corrected].
    split; [unfold index_ok; cbn; lia|].
    split; [constructor; [lia|constructor]|auto].
  - unfold reformulate.
    destruct (original conv) eqn:Ho,
             (fluency_versions conv) as [|v versions] eqn:Hv,
             reply as [[new_version tokens]|];
      rewrite ?Ho, ?Hv; auto.
    destruct (Z.gtb_spec
                (len (Bot.plain_text
                        (Markdown.convert_markdown_to_html_bot new_version)))
                MAX_MESSAGE_LENGTH); rewrite ?Ho, ?Hv; auto.
    cbn [fluency_versions current_version_index original corrected].
    split; [|split; [|auto]].
    + unfold index_ok. cbn [fluency_versions current_version_index app length].
      lia.
    + apply (Forall_app_2 _ (v :: versions)); [exact Hfit|].
      constructor; [lia|constructor].
  - destruct (nav_in_order direction conv Hok) as (H1 & H2 & H3 & H4 & _).
    rewrite H2. auto.
Qed.

(** X22: whatever styles are chosen, reformulations asked for and arrows
    pressed after a correction is stored, the current index points at a
    version (or is 0 while there is none), every version kept has a plain
    text within [MAX_MESSAGE_LENGTH], and the original and corrected texts
    stay.  So [nav] never fails on [fluency_versions[new_index]]: it shows
    the version at the new index, for copying, numbered from 1 to the number
    of versions. *)
Theorem versions_navigable MAX_MESSAGE_LENGTH combined_text corrected_text
    (events : list event) (direction : list N) :
  let conv :=
    fold_left (step MAX_MESSAGE_LENGTH) events
      (new_conversation combined_text corrected_text) in
  index_ok conv
  /\ Forall (fun v => len (Bot.plain_text v) <= MAX_MESSAGE_LENGTH)
            (fluency_versions conv)
  /\ original conv = combined_text
  /\ corrected conv = corrected_text
  /\ match snd (nav direction conv) with
     | Raised _ => False
     | Returned NoVersions => fluency_versions conv = []
     | Returned Unmoved => True
     | Returned (Version text number total) =>
         total = Z.of_nat (length (fluency_versions conv))
         /\ 1 <= number <= total
         /\ current_version_index (fst (nav direction conv)) = number - 1
         /\ exists version_text,
              fluency_versions conv !! Z.to_nat (number - 1)
              = Some version_text
              /\ text = copiable_text version_text
     end.
Proof.
  intros conv.
  assert (H : index_ok conv
              /\ Forall (fun v => len (Bot.plain_text v) <= MAX_MESSAGE_LENGTH)
                        (fluency_versions conv)
              /\ original conv = combined_text
              /\ corrected conv = corrected_text).
  { subst conv.
    assert (Hinit : index_ok (new_conversation combined_text corrected_text)
                    /\ Forall (fun v => len (Bot.plain_text v)
                                        <= MAX_MESSAGE_LENGTH)
                         (fluency_versions
                            (new_conversation combined_text corrected_text))
                    /\ original (new_conversation combined_text corrected_text)
                       = combined_text
                    /\ corrected (new_conversation combined_text corrected_text)
                       = corrected_text).
    { repeat split. constructor. }
    revert Hinit. generalize (new_conversation combined_text corrected_text).
    induction events as [|e events IH]; intros c Hc; [exact Hc|].
    cbn [fold_left]. apply IH.
    destruct Hc as (H1 & H2 & H3 & H4).
    destruct (step_in_order MAX_MESSAGE_LENGTH c e H1 H2)
      as (K1 & K2 & K3 & K4).
    repeat split; try assumption; congruence. }
  destruct H as (H1 & H2 & H3 & H4).
  repeat (split; [assumption|]).
  apply (nav_in_order direction conv H1).
Qed.
End GrammarBotFacts.
